(** * The meetup announcer of surreycodecamp-hubot

    A shallow embedding of the two hubot scripts of the repository:

    - the script with the on-demand command ([getUpcomingMeetups],
      [Meetup.cmdShowUpcoming], [Meetup.announceEvents],
      [Meetup.checkForAndAnnounceNewMeetups]), below [Module Meetup];
    - [scripts/meetup.js] ([Meetup._checkForAndAnnounceNewMeetups]), below
      [Module ScriptsMeetup].

    Both scripts are callback code over external services.  A handler is
    modelled as a function from the object's fields, the content of the redis
    key and the replies the services give during that invocation, to the new
    fields, the new content of the key and the list of effects the handler
    performed, in order; the callbacks of one invocation are run to their
    end before the next invocation starts.  Events are the records of
    section 3 of the specification: every field is present and [time] is an
    integer.  [Array.prototype.sort], whose result on the comparator of the
    scripts depends on the engine, is a parameter, with the two routines of
    V8 as instances. *)

From Stdlib Require Import ZArith List Bool Ascii String Lia.
From Stdlib Require Import Permutation Sorted.
From Stdlib Require Import Decimal DecimalString DecimalZ.
Import ListNotations.

Local Open Scope string_scope.
Local Open Scope Z_scope.

(** ** Events as the events API returns them *)

Module Venue.
Record t := mk { name : string; address_1 : string; city : string }.
End Venue.

Module Event.
Record t := mk {
  name : string;
  time : Z;
  venue : Venue.t;
  link : string;
  status : string
}.
End Event.

(** ** The fragment of ECMAScript the scripts rely on *)

Module JS.

(** Values that reach [this.lastAnnounced] or a comparison.  Numbers are the
    integers ([Num]) and [NaN]; time values stay below 2^53, where doubles
    are exact. *)
Inductive value :=
| Undefined
| Null
| Num (z : Z)
| NaN
| Str (s : string)
| Obj (o : Event.t).

Inductive error :=
| SyntaxError      (* JSON.parse on text that is not JSON *)
| TypeError        (* property access on undefined or null *)
| RangeError       (* Date.prototype.toISOString on an invalid date *)
| TransportError   (* the [err] of a failed request *)
| StoreError.      (* the [err] of a failed redis command *)

(** Truthiness of a string taken from the environment or from redis:
    [x || d] and [if (x)]. *)
Definition truthy (x : option string) : bool :=
  match x with
  | None => false
  | Some EmptyString => false
  | Some _ => true
  end.

Definition or_else (x : option string) (d : string) : string :=
  match x with
  | Some (String c s) => String c s
  | _ => d
  end.

(** [Number::toString] on an integer, as in template literals and in the
    argument redis receives from [set]. *)
Definition Number_toString (z : Z) : string :=
  NilEmpty.string_of_int (Z.to_int z).

Definition is_white (c : ascii) : bool :=
  match nat_of_ascii c with
  | 9%nat | 10%nat | 11%nat | 12%nat | 13%nat | 32%nat => true
  | _ => false
  end.

Fixpoint skip_white (s : string) : string :=
  match s with
  | String c s' => if is_white c then skip_white s' else s
  | EmptyString => s
  end.

Definition digit_of (c : ascii) : option (uint -> uint) :=
  match c with
  | "0"%char => Some D0 | "1"%char => Some D1 | "2"%char => Some D2
  | "3"%char => Some D3 | "4"%char => Some D4 | "5"%char => Some D5
  | "6"%char => Some D6 | "7"%char => Some D7 | "8"%char => Some D8
  | "9"%char => Some D9
  | _ => None
  end.

(** The longest prefix of decimal digits, and what follows it. *)
Fixpoint digits_prefix (s : string) : uint * string :=
  match s with
  | EmptyString => (Nil, s)
  | String c s' =>
      match digit_of c with
      | Some d => let (u, rest) := digits_prefix s' in (d u, rest)
      | None => (Nil, s)
      end
  end.

Definition hex_value (c : ascii) : option Z :=
  let n := Z.of_nat (nat_of_ascii c) in
  if (48 <=? n) && (n <=? 57) then Some (n - 48)
  else if (65 <=? n) && (n <=? 70) then Some (n - 55)
  else if (97 <=? n) && (n <=? 102) then Some (n - 87)
  else None.

Fixpoint hex_prefix (acc : option Z) (s : string) : option Z :=
  match s with
  | EmptyString => acc
  | String c s' =>
      match hex_value c with
      | Some d =>
          hex_prefix (Some (16 * match acc with Some a => a | None => 0 end + d)) s'
      | None => acc
      end
  end.

Definition of_option (n : option Z) : value :=
  match n with Some z => Num z | None => NaN end.

(** The magnitude [parseInt] reads after the sign: a [0x] prefix selects
    radix 16, otherwise radix 10; no digit at all gives [NaN]. *)
Definition parse_magnitude (s : string) : option Z :=
  match s with
  | String "0"%char (String "x"%char s')
  | String "0"%char (String "X"%char s') => hex_prefix None s'
  | _ =>
      match digits_prefix s with
      | (Nil, _) => None
      | (u, _) => Some (Z.of_uint u)
      end
  end.

(** [parseInt(s)] with no radix argument. *)
Definition parseInt (s : string) : value :=
  match skip_white s with
  | String "-"%char s' => of_option (option_map Z.opp (parse_magnitude s'))
  | String "+"%char s' => of_option (parse_magnitude s')
  | s' => of_option (parse_magnitude s')
  end.

(** [ToNumber] on a string, for the integer numerals: an optional sign and
    decimal digits up to the end of the text, blanks trimmed on the left;
    the empty text is [0].  Numerals with a fraction, an exponent, a radix
    prefix or trailing blanks have no integer reading here and count as
    [NaN]. *)
Definition signed_digits (s : string) : option Z :=
  match digits_prefix s with
  | (Nil, _) => None
  | (u, EmptyString) => Some (Z.of_uint u)
  | _ => None
  end.

Definition StringToNumber (s : string) : option Z :=
  match skip_white s with
  | EmptyString => Some 0
  | String "-"%char s' => option_map Z.opp (signed_digits s')
  | String "+"%char s' => signed_digits s'
  | s' => signed_digits s'
  end.

(** [ToPrimitive]: an object parsed from JSON has no callable property of
    its own, so the inherited [Object.prototype.toString] answers. *)
Definition ToPrimitive (v : value) : value :=
  match v with
  | Obj _ => Str "[object Object]"
  | _ => v
  end.

(** [ToNumber]; [None] is [NaN]. *)
Definition ToNumber (v : value) : option Z :=
  match ToPrimitive v with
  | Undefined => None
  | Null => Some 0
  | Num z => Some z
  | NaN => None
  | Str s => StringToNumber s
  | Obj _ => None
  end.

(** [x > y]: two strings compare by code units, anything else as numbers,
    and a comparison with [NaN] is false. *)
Definition gt (x y : value) : bool :=
  match ToPrimitive x, ToPrimitive y with
  | Str sx, Str sy => String.ltb sy sx
  | px, py =>
      match ToNumber px, ToNumber py with
      | Some nx, Some ny => ny <? nx
      | _, _ => false
      end
  end.

(** A boolean returned by a sort comparator is read as a number. *)
Definition ToNumber_bool (b : bool) : Z := if b then 1 else 0.

(** *** [Array.prototype.sort]

    The order [sort] produces is fixed by the language only for a
    consistent comparator; the engines differ on the others.  The scripts
    are parameterised by the engine. *)
Class SortEngine := Array_sort : forall A : Type, (A -> A -> Z) -> list A -> list A.

(** What every engine guarantees whatever the comparator: the result is a
    rearrangement of the array. *)
Definition rearranges (engine : SortEngine) : Prop :=
  forall (A : Type) (cmp : A -> A -> Z) (l : list A),
    Permutation l (Array_sort A cmp l).

Section Engines.
Context {A : Type} (comparefn : A -> A -> Z).

(** V8 up to 6.x (Node up to 10), [InsertionSort], the routine it runs on
    arrays of at most ten elements: [element] moves left past [tmp] while
    [comparefn(tmp, element) > 0].  The sorted part is kept with its
    right end first. *)
Fixpoint shift_left (element : A) (sorted_rev : list A) : list A :=
  match sorted_rev with
  | [] => [element]
  | tmp :: rest =>
      if 0 <? comparefn tmp element
      then tmp :: shift_left element rest
      else element :: sorted_rev
  end.

Definition InsertionSort (a : list A) : list A :=
  List.rev (fold_left (fun sorted_rev element => shift_left element sorted_rev) a []).

(** V8 from 7.0 on (Node 11 and later), [ArrayTimSortImpl] on an array
    shorter than 64 elements: [CountAndMakeRun] takes the longest initial
    run, reversing it when it is strictly descending, and
    [BinaryInsertionSort] inserts the remaining elements.  Every test is
    [order < 0]. *)
Fixpoint run_after (descending : bool) (previous : A) (l : list A)
  : list A * list A :=
  match l with
  | [] => ([], [])
  | current :: l' =>
      let order := comparefn current previous in
      if (if descending then order <? 0 else 0 <=? order)
      then let (run, rest) := run_after descending current l' in
           (current :: run, rest)
      else ([], l)
  end.

Definition CountAndMakeRun (l : list A) : list A * list A :=
  match l with
  | low :: next :: l' =>
      let descending := comparefn next low <? 0 in
      let (run, rest) := run_after descending next l' in
      let whole := low :: next :: run in
      (if descending then List.rev whole else whole, rest)
  | _ => (l, [])
  end.

(** The binary search of [BinaryInsertionSort] for the place of [pivot]
    in [sorted], between [left] and [right]. *)
Fixpoint search (fuel : nat) (pivot : A) (sorted : list A) (left right : nat)
  : nat :=
  match fuel with
  | O => left
  | S fuel' =>
      if (left <? right)%nat then
        let mid := (left + (right - left) / 2)%nat in
        if comparefn pivot (nth mid sorted pivot) <? 0
        then search fuel' pivot sorted left mid
        else search fuel' pivot sorted (S mid) right
      else left
  end.

Definition insert_pivot (sorted : list A) (pivot : A) : list A :=
  let n := List.length sorted in
  let left := search (S n) pivot sorted 0 n in
  (firstn left sorted ++ pivot :: skipn left sorted)%list.

Definition TimSort (a : list A) : list A :=
  let (run, rest) := CountAndMakeRun a in
  fold_left insert_pivot rest run.
End Engines.

Definition V8_InsertionSort : SortEngine := fun A cmp a => InsertionSort cmp a.
Definition V8_TimSort : SortEngine := fun A cmp a => TimSort cmp a.

End JS.

(** ** moment-timezone: the time of day in America/Vancouver *)

Module Moment.

(** [new Date(t)] is a valid date for |t| <= 8.64e15 only;
    [toISOString] throws a [RangeError] on the others.  The text it returns
    is only read back by [moment], to the same instant. *)
Definition valid_time (t : Z) : bool := Z.abs t <=? 8640000000000000.

Definition Date_toISOString (t : Z) : JS.error + Z :=
  if valid_time t then inr t else inl JS.RangeError.

(** Days since 1970-01-01 of a proleptic Gregorian date, and the year a day
    falls in. *)
Definition days_from_civil (y m d : Z) : Z :=
  let y' := if m <=? 2 then y - 1 else y in
  let era := y' / 400 in
  let yoe := y' - era * 400 in
  let doy := (153 * (if 2 <? m then m - 3 else m + 9) + 2) / 5 + d - 1 in
  let doe := yoe * 365 + yoe / 4 - yoe / 100 + doy in
  era * 146097 + doe - 719468.

Definition year_of_day (z : Z) : Z :=
  let z' := z + 719468 in
  let era := z' / 146097 in
  let doe := z' - era * 146097 in
  let yoe := (doe - doe / 1460 + doe / 36524 - doe / 146096) / 365 in
  let doy := doe - (365 * yoe + yoe / 4 - yoe / 100) in
  let mp := (5 * doy + 2) / 153 in
  yoe + era * 400 + (if mp <? 10 then 0 else 1).

(** Day of the month of the first Sunday of month [m] of year [y]
    (1970-01-01 was a Thursday). *)
Definition first_sunday (y m : Z) : Z :=
  let weekday := (days_from_civil y m 1 + 4) mod 7 in
  1 + (7 - weekday) mod 7.

Definition ms_per_day : Z := 86400000.
Definition ms_per_hour : Z := 3600000.
Definition ms_per_minute : Z := 60000.

(** The zone America/Vancouver under the rule in force since 2007:
    daylight time (UTC-7) from the second Sunday of March, 02:00 standard
    time, to the first Sunday of November, 02:00 daylight time; standard
    time (UTC-8) otherwise.  The result is the offset from UTC in minutes.
    Instants before 2007 follow older rules of the zone file, which are not
    reproduced. *)
Definition America_Vancouver (t : Z) : Z :=
  let y := year_of_day (t / ms_per_day) in
  let starts :=
    days_from_civil y 3 (first_sunday y 3 + 7) * ms_per_day + 10 * ms_per_hour in
  let ends :=
    days_from_civil y 11 (first_sunday y 11) * ms_per_day + 9 * ms_per_hour in
  if (starts <=? t) && (t <? ends) then -420 else -480.

(** Local wall-clock minute of the day, 0..1439. *)
Definition minute_of_day (zone : Z -> Z) (t : Z) : Z :=
  ((t + zone t * ms_per_minute) / ms_per_minute) mod 1440.

(** [format('h:ma')]: token [h] is the hour 1..12, [m] the minute 0..59
    without padding, [a] the meridiem in lower case; the colon is copied. *)
Definition format_h_m_a (zone : Z -> Z) (t : Z) : string :=
  let minutes := minute_of_day zone t in
  let hour := minutes / 60 in
  let h := if hour mod 12 =? 0 then 12 else hour mod 12 in
  let m := minutes mod 60 in
  let a := if hour <? 12 then "am" else "pm" in
  (JS.Number_toString h ++ ":" ++ JS.Number_toString m ++ a)%string.

(** [format('h:mma')], the zero-padded minute of the specification's
    example, for comparison. *)
Definition format_h_mm_a (zone : Z -> Z) (t : Z) : string :=
  let minutes := minute_of_day zone t in
  let hour := minutes / 60 in
  let h := if hour mod 12 =? 0 then 12 else hour mod 12 in
  let m := minutes mod 60 in
  let a := if hour <? 12 then "am" else "pm" in
  let pad := if (m <? 10)%Z then "0" else EmptyString in
  (JS.Number_toString h ++ ":" ++ pad ++ JS.Number_toString m ++ a)%string.

(** [moment(new Date(t).toISOString()).tz('America/Vancouver').format('h:ma')] *)
Definition when (t : Z) : JS.error + string :=
  match Date_toISOString t with
  | inl e => inl e
  | inr instant => inr (format_h_m_a America_Vancouver instant)
  end.

End Moment.

(** ** Regular expressions without metacharacters *)

Module RegExp.

Record t := mk { source : string; ignoreCase : bool }.

(** Canonicalisation under the [i] flag: a lower-case ASCII letter stands
    for its upper-case form; no other code unit maps onto an ASCII one. *)
Definition canonicalize (c : ascii) : ascii :=
  let n := nat_of_ascii c in
  if ((97 <=? n) && (n <=? 122))%nat then ascii_of_nat (n - 32) else c.

Definition same_char (i : bool) (p c : ascii) : bool :=
  if i then Ascii.eqb (canonicalize p) (canonicalize c) else Ascii.eqb p c.

(** The pattern matches at the start of the text. *)
Fixpoint matches_here (i : bool) (p s : string) : bool :=
  match p, s with
  | EmptyString, _ => true
  | String _ _, EmptyString => false
  | String a p', String c s' => same_char i a c && matches_here i p' s'
  end.

(** The pattern matches at some position of the text. *)
Fixpoint matches_somewhere (i : bool) (p s : string) : bool :=
  matches_here i p s ||
  match s with
  | EmptyString => false
  | String _ s' => matches_somewhere i p s'
  end.

Definition test (re : t) (text : string) : bool :=
  matches_somewhere (ignoreCase re) (source re) text.

(** The same text up to the case of ASCII letters. *)
Fixpoint fold_case (s : string) : string :=
  match s with
  | EmptyString => EmptyString
  | String c s' => String (canonicalize c) (fold_case s')
  end.

End RegExp.

(** ** Chat messages *)

Module Message.
Record field := mk_field { title : string; value : string; short : option bool }.
Record attachment := mk_attachment {
  fields : list field;
  thumb_url : string;
  footer : string
}.
Record t := mk { text : string; attachments : list attachment }.

(** Reading a message back. *)
Definition field_named (name : string) (m : t) : option string :=
  match attachments m with
  | a :: _ =>
      option_map value (find (fun f => String.eqb (title f) name) (fields a))
  | [] => None
  end.

End Message.

(** ** The process environment and the services *)

Module Process.
Record env := mk_env {
  REDIS_URL : option string;
  HUBOT_MEETUP_NOTIFICATION_CHANNEL : option string;
  HUBOT_MEETUP_CHECK_INTERVAL : option string;
  HUBOT_MEETUP_GROUP_NAME : option string
}.
End Process.

(** Where a message goes: [resp.send] answers the requester, [hubot.send]
    takes an envelope with a room. *)
Inductive destination :=
| Requester
| Room (room : option string).

(** What a handler does to the outside, in the order it does it. *)
Inductive effect :=
| HttpGet (url : string)
| Send (to : destination) (m : Message.t)
| LoggerInfo (line : string)
| LoggerError (e : JS.error)
| RobotError (e : JS.error)            (* [this.hubot.error(err)] *)
| RedisGet (key : string)
| RedisSet (key : string) (val : string)
| UnhandledRejection (e : JS.error)    (* a rejected promise nobody catches *)
| Uncaught (e : JS.error).             (* an exception leaving a callback *)

(** Replies of the services during one invocation. *)
Inductive http_reply :=
| NetworkError                     (* [err] set, no body *)
| BadBody                          (* a body [JSON.parse] rejects *)
| Events (events : list Event.t).

Inductive outcome := Fails | Works.

Inductive client := Client.

Definition LAST_ANNOUNCED_KEY : string := "events:last-announced".

Definition thumb : string :=
  "https://secure.meetupstatic.com/s/img/422066906568/logo/swarm/m_swarm_128x128.png".

Definition newline : string := String "010"%char EmptyString.

Definition is_send (e : effect) : bool :=
  match e with Send _ _ => true | _ => false end.

Definition is_log (e : effect) : bool :=
  match e with LoggerInfo _ | LoggerError _ | RobotError _ => true | _ => false end.

Definition is_store_write (e : effect) : bool :=
  match e with RedisSet _ _ => true | _ => false end.

Definition is_request (e : effect) : bool :=
  match e with HttpGet _ => true | _ => false end.

(** The messages a list of effects sends, in order. *)
Definition sent (fx : list effect) : list Message.t :=
  flat_map (fun e => match e with Send _ m => [m] | _ => [] end) fx.

(** What the scripts share: the fields of the [Meetup] object together with
    the content of the redis key and the timer [initialize] may arm. *)
Record state := mk_state {
  redis : option client;          (* [this.redis]: a client, or null/undefined *)
  lastAnnounced : JS.value;       (* [this.lastAnnounced] *)
  stored : option string;         (* what redis holds under the key *)
  timer : option JS.value         (* the delay given to [setInterval], if called *)
}.

Definition with_redis (st : state) (c : option client) : state :=
  mk_state c (lastAnnounced st) (stored st) (timer st).

Definition with_lastAnnounced (st : state) (v : JS.value) : state :=
  mk_state (redis st) v (stored st) (timer st).

Definition with_stored (st : state) (s : option string) : state :=
  mk_state (redis st) (lastAnnounced st) s (timer st).

Definition with_timer (st : state) (t : option JS.value) : state :=
  mk_state (redis st) (lastAnnounced st) (stored st) t.

(** The persisted watermark as a load would read it:
    [parseInt(lastAnnounced || '0')]. *)
Definition persisted (st : state) : JS.value :=
  JS.parseInt (JS.or_else (stored st) "0").

Section Constants.
Variable env : Process.env.

Definition NOTIFICATION_CHANNEL : option string :=
  if JS.truthy (Process.HUBOT_MEETUP_NOTIFICATION_CHANNEL env)
  then Process.HUBOT_MEETUP_NOTIFICATION_CHANNEL env else None.

Definition MEETUP_CHECK_INTERVAL : JS.value :=
  match JS.parseInt (JS.or_else (Process.HUBOT_MEETUP_CHECK_INTERVAL env) "10") with
  | JS.Num n => JS.Num (n * 60 * 1000)
  | _ => JS.NaN
  end.

Definition MEETUP_GROUP_NAME : string :=
  JS.or_else (Process.HUBOT_MEETUP_GROUP_NAME env) "Surrey-Code-Camp".

Definition events_url : string :=
  ("https://api.meetup.com/" ++ MEETUP_GROUP_NAME ++ "/events")%string.

(** [`${NOTIFICATION_CHANNEL}`] *)
Definition channel_text : string :=
  match NOTIFICATION_CHANNEL with Some c => c | None => "null" end.
End Constants.

(** [(a, b) => a.time > b.time], the comparator of both scripts, as the
    engine reads its result. *)
Definition by_time (a b : Event.t) : Z :=
  JS.ToNumber_bool (JS.gt (JS.Num (Event.time a)) (JS.Num (Event.time b))).

(** [ev => ev.time > this.lastAnnounced] *)
Definition newer_than (watermark : JS.value) (ev : Event.t) : bool :=
  JS.gt (JS.Num (Event.time ev)) watermark.

Definition where_value (ev : Event.t) : string :=
  (Venue.name (Event.venue ev) ++ newline ++ Venue.address_1 (Event.venue ev)
     ++ ", " ++ Venue.city (Event.venue ev))%string.

(** [ev => ev.status === 'upcoming'] *)
Definition is_upcoming (ev : Event.t) : bool :=
  String.eqb (Event.status ev) "upcoming".

(** An event whose [time] is a valid date, so that building its message does
    not throw. *)
Definition valid_event (ev : Event.t) : Prop :=
  Moment.valid_time (Event.time ev) = true.

(** [events[events.length - 1]] of a non-empty array. *)
Definition last_of (first : Event.t) (others : list Event.t) : Event.t :=
  last others first.

(** ** The script with the on-demand command *)

Module Meetup.
Section Script.
Context {engine : JS.SortEngine}.
Variable env : Process.env.

Inductive promise :=
  | Fulfilled (events : list Event.t)
  | Rejected (e : JS.error)
  | Pending.

(** [getUpcomingMeetups]: after [reject(err)] the callback goes on and
    [JSON.parse] throws on the missing body; on a body that does not parse
    the promise is never settled. *)
Definition getUpcomingMeetups (reply : http_reply) : promise * list effect :=
  match reply with
  | NetworkError =>
      (Rejected JS.TransportError,
       [HttpGet (events_url env); Uncaught JS.SyntaxError])
  | BadBody =>
      (Pending, [HttpGet (events_url env); Uncaught JS.SyntaxError])
  | Events events =>
      (Fulfilled (JS.Array_sort Event.t by_time (filter is_upcoming events)),
       [HttpGet (events_url env)])
  end.

(** The array the promise is fulfilled with; empty when it is not. *)
Definition listing (reply : http_reply) : list Event.t :=
  match fst (getUpcomingMeetups reply) with
  | Fulfilled events => events
  | _ => []
  end.

(** The part of the listing above the watermark: [unannouncedEvents]. *)
Definition unannounced (st : state) (reply : http_reply) : list Event.t :=
  filter (newer_than (lastAnnounced st)) (listing reply).

(** The message [announceEvents] builds for one event. *)
Definition format (ev : Event.t) (time_of_day : string) : Message.t :=
  Message.mk (Event.name ev)
    [Message.mk_attachment
       [Message.mk_field "Where" (where_value ev) (Some true);
        Message.mk_field "When" time_of_day (Some true)]
       thumb
       (Event.link ev)].

Definition message_of (ev : Event.t) : JS.error + Message.t :=
  match Moment.when (Event.time ev) with
  | inl e => inl e
  | inr time_of_day => inr (format ev time_of_day)
  end.

(** The message of an event with a valid [time]. *)
Definition rendered (ev : Event.t) : Message.t :=
  format ev (Moment.format_h_m_a Moment.America_Vancouver (Event.time ev)).

(** [events.map(ev => { ...; sender(message); })]: the sends made, and the
    exception that stopped the loop, if any. *)
Fixpoint send_each (to : destination) (events : list Event.t)
  : list effect * option JS.error :=
  match events with
  | [] => ([], None)
  | ev :: rest =>
      match message_of ev with
      | inl e => ([], Some e)
      | inr message =>
          let (fx, thrown) := send_each to rest in
          (Send to message :: fx, thrown)
      end
  end.

(** [announceEvents(events, sender)], with the callback of [redis.set] run
    to its end: the key changes only when the command works, the field
    changes in both cases. *)
Definition announceEvents (st : state) (events : list Event.t)
    (to : destination) (set : outcome)
  : state * list effect * option JS.error :=
  let (fx, thrown) := send_each to events in
  match thrown with
  | Some e => (st, fx, Some e)
  | None =>
      match redis st, events with
      | Some _, first :: others =>
          let newest := Event.time (last_of first others) in
          let write := RedisSet LAST_ANNOUNCED_KEY (JS.Number_toString newest) in
          match set with
          | Works =>
              (with_lastAnnounced
                 (with_stored st (Some (JS.Number_toString newest)))
                 (JS.Num newest),
               (fx ++ [write])%list, None)
          | Fails =>
              (with_lastAnnounced st (JS.Num newest),
               (fx ++ [write; RobotError JS.StoreError])%list, None)
          end
      | _, _ => (st, fx, None)
      end
  end.

(** An exception thrown inside a [then] callback rejects a promise nobody
    observes. *)
Definition unobserved (thrown : option JS.error) : list effect :=
  match thrown with
  | Some e => [UnhandledRejection e]
  | None => []
  end.

(** [cmdShowUpcoming(resp)] *)
Definition cmdShowUpcoming (st : state) (reply : http_reply) (set : outcome)
  : state * list effect :=
  match getUpcomingMeetups reply with
  | (Fulfilled events, fx) =>
      let '(st', fx', thrown) := announceEvents st events Requester set in
      (st', (fx ++ fx' ++ unobserved thrown)%list)
  | (Rejected e, fx) => (st, (fx ++ [UnhandledRejection e])%list)
  | (Pending, fx) => (st, fx)
  end.

Definition count_text (events : list Event.t) : string :=
  JS.Number_toString (Z.of_nat (List.length events)).

(** [checkForAndAnnounceNewMeetups()] *)
Definition checkForAndAnnounceNewMeetups (st : state) (reply : http_reply)
    (set : outcome) : state * list effect :=
  match getUpcomingMeetups reply with
  | (Fulfilled events, fx) =>
      let unannouncedEvents := filter (newer_than (lastAnnounced st)) events in
      let found :=
        LoggerInfo (count_text unannouncedEvents ++ " unannounced meetups found") in
      match unannouncedEvents with
      | [] => (st, (fx ++ [found])%list)
      | _ :: _ =>
          let notifying :=
            LoggerInfo ("Notifying #" ++ channel_text env ++ " of "
                        ++ count_text unannouncedEvents ++ " unannounced events") in
          let '(st', fx', thrown) :=
            announceEvents st unannouncedEvents
              (Room (Some ("#" ++ channel_text env)%string)) set in
          (st', (fx ++ [found; notifying] ++ fx' ++ unobserved thrown)%list)
      end
  | (Rejected e, fx) => (st, (fx ++ [UnhandledRejection e])%list)
  | (Pending, fx) => (st, fx)
  end.

(** The constructor: the fields, and the one listener it registers with
    [hubot.respond]. *)
Definition constructor : state := mk_state None JS.Undefined None None.

Inductive handler := CmdShowUpcoming.

Definition listeners : list (RegExp.t * handler) :=
  [(RegExp.mk "show upcoming meetups" true, CmdShowUpcoming)].

(** Some listener's pattern matches the text of a message hubot hands to
    its [respond] listeners. *)
Definition triggered (text : string) : bool :=
  existsb (fun l => RegExp.test (fst l) text) listeners.

(** [initialize()], on the object [st] (the constructor's, with whatever
    the key holds), with the callback of [redis.get] run to its end. *)
Definition initialize (st : state) (create get : outcome)
  : state * list effect :=
  let '(st1, fx1) :=
    if JS.truthy (Process.REDIS_URL env) then
      match create with
      | Works => (with_redis st (Some Client), [])
      | Fails => (st, [LoggerError JS.StoreError])
      end
    else (st, []) in
  let '(st2, fx2) :=
    match redis st1 with
    | Some _ =>
        match get with
        | Works =>
            (with_lastAnnounced st1 (JS.parseInt (JS.or_else (stored st1) "0")),
             [RedisGet LAST_ANNOUNCED_KEY])
        | Fails =>
            (with_lastAnnounced st1 (JS.parseInt (JS.or_else None "0")),
             [RedisGet LAST_ANNOUNCED_KEY; LoggerError JS.StoreError])
        end
    | None => (st1, [])
    end in
  let st3 :=
    if JS.truthy (NOTIFICATION_CHANNEL env)
    then with_timer st2 (Some (MEETUP_CHECK_INTERVAL env))
    else st2 in
  (st3, (fx1 ++ fx2)%list).

(** One firing of the timer: the cycle runs if [setInterval] was called. *)
Definition tick (st : state) (reply : http_reply) (set : outcome)
  : state * list effect :=
  match timer st with
  | Some _ => checkForAndAnnounceNewMeetups st reply set
  | None => (st, [])
  end.

(** A run of scheduled cycles, one pair of replies per cycle: the states
    after each cycle and all the effects. *)
Fixpoint cycles (st : state) (replies : list (http_reply * outcome))
  : list state * list effect :=
  match replies with
  | [] => ([], [])
  | (reply, set) :: later =>
      let (st', fx) := checkForAndAnnounceNewMeetups st reply set in
      let (sts, fxs) := cycles st' later in
      (st' :: sts, (fx ++ fxs)%list)
  end.
End Script.
End Meetup.

(** ** [scripts/meetup.js] *)

Module ScriptsMeetup.
Section Script.
Context {engine : JS.SortEngine}.
Variable env : Process.env.

(** The message built in [_checkForAndAnnounceNewMeetups]; its "When"
    field has no [short]. *)
Definition format (ev : Event.t) (time_of_day : string) : Message.t :=
  Message.mk (Event.name ev)
    [Message.mk_attachment
       [Message.mk_field "Where" (where_value ev) (Some true);
        Message.mk_field "When" time_of_day None]
       thumb
       (Event.link ev)].

Definition message_of (ev : Event.t) : JS.error + Message.t :=
  match Moment.when (Event.time ev) with
  | inl e => inl e
  | inr time_of_day => inr (format ev time_of_day)
  end.

(** The message of an event with a valid [time]. *)
Definition rendered (ev : Event.t) : Message.t :=
  format ev (Moment.format_h_m_a Moment.America_Vancouver (Event.time ev)).

Fixpoint send_each (events : list Event.t) : list effect * option JS.error :=
  match events with
  | [] => ([], None)
  | ev :: rest =>
      match message_of ev with
      | inl e => ([], Some e)
      | inr message =>
          let (fx, thrown) := send_each rest in
          (Send (Room (NOTIFICATION_CHANNEL env)) message :: fx, thrown)
      end
  end.

(** [_checkForAndAnnounceNewMeetups()], with the callback of [redis.set]
    run to its end.  [err] is not looked at: [JSON.parse] throws on a
    missing or unparsable body.  The guard and the value saved read the
    whole array [events]; the callback names [this.hubor], which is
    undefined, when [err] is set, and otherwise stores the event itself. *)
Definition _checkForAndAnnounceNewMeetups (st : state) (reply : http_reply)
    (set : outcome) : state * list effect :=
  let request := HttpGet (events_url env) in
  match reply with
  | NetworkError | BadBody => (st, [request; Uncaught JS.SyntaxError])
  | Events [] => (st, [request])
  | Events ((first :: others) as events) =>
      let notifying :=
        LoggerInfo ("Notifying #" ++ channel_text env ++ " of "
                    ++ JS.Number_toString (Z.of_nat (List.length events))
                    ++ " new events") in
      let announced :=
        JS.Array_sort Event.t by_time
          (filter (newer_than (lastAnnounced st)) events) in
      let (fx, thrown) := send_each announced in
      match thrown with
      | Some e => (st, (request :: notifying :: fx ++ [Uncaught e])%list)
      | None =>
          match redis st with
          | None => (st, (request :: notifying :: fx ++ [Uncaught JS.TypeError])%list)
          | Some _ =>
              let newest := last_of first others in
              let write :=
                RedisSet LAST_ANNOUNCED_KEY (JS.Number_toString (Event.time newest)) in
              match set with
              | Works =>
                  (with_lastAnnounced
                     (with_stored st (Some (JS.Number_toString (Event.time newest))))
                     (JS.Obj newest),
                   (request :: notifying :: fx ++ [write])%list)
              | Fails =>
                  (st, (request :: notifying :: fx
                          ++ [write; Uncaught JS.TypeError])%list)
              end
          end
      end
  end.

Definition constructor : state := mk_state None JS.Undefined None None.

(** [initialize()]: the loaded text is kept as it is,
    [lastAnnounced || 0]. *)
Definition initialize (st : state) (create get : outcome)
  : state * list effect :=
  let '(st1, fx1) :=
    if JS.truthy (Process.REDIS_URL env) then
      match create with
      | Works => (with_redis st (Some Client), [])
      | Fails => (with_redis st None, [LoggerError JS.StoreError])
      end
    else (st, []) in
  let '(st2, fx2) :=
    match redis st1 with
    | Some _ =>
        match get with
        | Works =>
            (with_lastAnnounced st1
               (if JS.truthy (stored st1)
                then JS.Str (JS.or_else (stored st1) EmptyString)
                else JS.Num 0),
             [RedisGet LAST_ANNOUNCED_KEY])
        | Fails =>
            (with_lastAnnounced st1 (JS.Num 0),
             [RedisGet LAST_ANNOUNCED_KEY; LoggerError JS.StoreError])
        end
    | None => (st1, [])
    end in
  let st3 :=
    if JS.truthy (NOTIFICATION_CHANNEL env)
    then with_timer st2 (Some (MEETUP_CHECK_INTERVAL env))
    else st2 in
  (st3, (fx1 ++ fx2)%list).

Definition tick (st : state) (reply : http_reply) (set : outcome)
  : state * list effect :=
  match timer st with
  | Some _ => _checkForAndAnnounceNewMeetups st reply set
  | None => (st, [])
  end.

Fixpoint cycles (st : state) (replies : list (http_reply * outcome))
  : list state * list effect :=
  match replies with
  | [] => ([], [])
  | (reply, set) :: later =>
      let (st', fx) := _checkForAndAnnounceNewMeetups st reply set in
      let (sts, fxs) := cycles st' later in
      (st' :: sts, (fx ++ fxs)%list)
  end.
End Script.
End ScriptsMeetup.

(** ** Vocabulary of the properties *)

(** Ascending order of the [time] field. *)
Definition ascending (events : list Event.t) : Prop :=
  Sorted (fun a b => Event.time a <= Event.time b) events.

Fixpoint ascendingb (events : list Event.t) : bool :=
  match events with
  | a :: (b :: _) as rest => (Event.time a <=? Event.time b) && ascendingb rest
  | _ => true
  end.

(** The largest [time] of a non-empty list. *)
Definition max_time (first : Event.t) (others : list Event.t) : Z :=
  fold_left Z.max (map Event.time others) (Event.time first).

(** One watermark value is not below another: the same value, or two values
    that read as numbers in order. *)
Definition not_below (later earlier : JS.value) : Prop :=
  later = earlier \/
  exists a b, JS.ToNumber earlier = Some a /\ JS.ToNumber later = Some b /\ a <= b.

(** A watermark sequence never goes down. *)
Fixpoint never_decreases (current : JS.value) (next : list JS.value) : Prop :=
  match next with
  | [] => True
  | v :: later => not_below v current /\ never_decreases v later
  end.

(** A cycle that stops on a failed fetch: one request, and then no message,
    no write, no log line of the script and no change of state. *)
Definition quiet_abort (st st' : state) (fx : list effect) : Prop :=
  st' = st /\
  sent fx = [] /\
  existsb is_store_write fx = false /\
  existsb is_log fx = false /\
  List.length (filter is_request fx) = 1%nat.

(** The events a list of effects announces, read from the message text. *)
Definition texts (fx : list effect) : list string := map Message.text (sent fx).

(** Sample data. *)
Definition hall : Venue.t := Venue.mk "City Centre Library" "10350 University Dr" "Surrey".

Definition event (name : string) (time : Z) (status : string) : Event.t :=
  Event.mk name time hall ("https://www.meetup.com/Surrey-Code-Camp/events/" ++ name) status.

Definition sample_env : Process.env :=
  Process.mk_env (Some "redis://localhost:6379") (Some "general") None None.

Definition no_store_env : Process.env :=
  Process.mk_env None (Some "general") None None.

(** The script with the command after [initialize], the services answering
    and the key holding the decimal text of [watermark]. *)
Definition connected (watermark : Z) : state :=
  fst (Meetup.initialize sample_env
         (with_stored Meetup.constructor (Some (JS.Number_toString watermark)))
         Works Works).

(** [scripts/meetup.js] after [initialize] in the same conditions: the text
    of the key sits in [lastAnnounced]. *)
Definition loaded (watermark : Z) : state :=
  fst (ScriptsMeetup.initialize sample_env
         (with_stored ScriptsMeetup.constructor (Some (JS.Number_toString watermark)))
         Works Works).

(** ** The scripts as hubot runs them *)

(** [module.exports] of each script: a new object, then [initialize()], on a
    store whose key holds [content]. *)
Definition exports (env : Process.env) (content : option string)
    (create get : outcome) : state * list effect :=
  Meetup.initialize env (with_stored Meetup.constructor content) create get.

Definition scripts_exports (env : Process.env) (content : option string)
    (create get : outcome) : state * list effect :=
  ScriptsMeetup.initialize env (with_stored ScriptsMeetup.constructor content)
    create get.

(** What reaches the object of the script with the command afterwards: a
    firing of the timer, or the command. *)
Inductive invocation :=
| Fires
| Asks.

Definition handle {engine : JS.SortEngine} (env : Process.env) (st : state)
    (what : invocation) (reply : http_reply) (set : outcome)
  : state * list effect :=
  match what with
  | Fires => Meetup.tick env st reply set
  | Asks => Meetup.cmdShowUpcoming env st reply set
  end.

(** The states after each invocation of a run. *)
Fixpoint run {engine : JS.SortEngine} (env : Process.env) (st : state)
    (todo : list (invocation * http_reply * outcome)) : list state :=
  match todo with
  | [] => []
  | (what, reply, set) :: later =>
      let st' := fst (handle env st what reply set) in
      st' :: run env st' later
  end.

(** A watermark the filter can compare with: a number, [NaN] or
    [undefined], but no text and no object. *)
Definition plain_number (v : JS.value) : bool :=
  match v with
  | JS.Undefined | JS.Num _ | JS.NaN => true
  | _ => false
  end.

(** Every message of a list of effects goes to [to]. *)
Definition all_sent_to (to : destination) (fx : list effect) : Prop :=
  Forall (fun e => match e with Send to' _ => to' = to | _ => True end) fx.

(** The requests of a list of effects. *)
Definition requests (fx : list effect) : list string :=
  flat_map (fun e => match e with HttpGet url => [url] | _ => [] end) fx.

(** The writes of a list of effects: key and value. *)
Definition writes (fx : list effect) : list (string * string) :=
  flat_map (fun e => match e with RedisSet k v => [(k, v)] | _ => [] end) fx.

(** A fetch for examples: two events above 1000, one below, one not
    upcoming. *)
Definition fetched_sample : list Event.t :=
  [event "old" 500 "upcoming"; event "past" 1200 "past";
   event "A" 1500 "upcoming"; event "B" 2000 "upcoming"].

(** * Facts about the ECMAScript fragment *)

Lemma digits_prefix_of_uint (u : uint) :
  JS.digits_prefix (NilEmpty.string_of_uint u) = (u, EmptyString).
Proof.
  induction u; simpl; try rewrite IHu; reflexivity.
Qed.

Lemma parse_magnitude_of_uint (u : uint) :
  u <> Nil ->
  JS.parse_magnitude (NilEmpty.string_of_uint u) = Some (Z.of_uint u).
Proof.
  intros Hu.
  assert (Hd : match JS.digits_prefix (NilEmpty.string_of_uint u) with
               | (Nil, _) => None
               | (v, _) => Some (Z.of_uint v)
               end = Some (Z.of_uint u)).
  { rewrite digits_prefix_of_uint. destruct u; congruence. }
  destruct u as [|v|v|v|v|v|v|v|v|v|v]; try exact Hd; try congruence.
  destruct v; exact Hd.
Qed.

Lemma to_int_digits (z : Z) :
  match Z.to_int z with Pos u | Neg u => u <> Nil end.
Proof.
  pose proof (DecimalZ.of_to z) as H.
  destruct (Z.to_int z) as [u|u] eqn:E; intros ->; simpl in H; subst z;
    discriminate E.
Qed.

Lemma parseInt_toString (z : Z) : JS.parseInt (JS.Number_toString z) = JS.Num z.
Proof.
  unfold JS.Number_toString.
  pose proof (DecimalZ.of_to z) as Hz.
  pose proof (to_int_digits z) as Hn.
  destruct (Z.to_int z) as [u|u]; simpl in Hz.
  - unfold NilEmpty.string_of_int.
    assert (Hs : JS.skip_white (NilEmpty.string_of_uint u) = NilEmpty.string_of_uint u)
      by (destruct u; reflexivity).
    assert (Hm := parse_magnitude_of_uint u Hn).
    unfold JS.parseInt. rewrite Hs.
    destruct u; try congruence; simpl NilEmpty.string_of_uint in *;
      cbv iota; rewrite Hm; simpl; congruence.
  - unfold NilEmpty.string_of_int, JS.parseInt.
    change (JS.skip_white (String "-" (NilEmpty.string_of_uint u)))
      with (String "-" (NilEmpty.string_of_uint u)).
    cbv iota. rewrite (parse_magnitude_of_uint u Hn). simpl. congruence.
Qed.

Lemma or_else_toString (z : Z) (d : string) :
  JS.or_else (Some (JS.Number_toString z)) d = JS.Number_toString z.
Proof.
  unfold JS.Number_toString. pose proof (to_int_digits z) as Hn.
  destruct (Z.to_int z) as [u|u]; [|reflexivity].
  destruct u; try reflexivity. congruence.
Qed.

(** What [set] writes is read back by a load as the same number. *)
Lemma persisted_after_write (st : state) (z : Z) :
  persisted (with_stored st (Some (JS.Number_toString z))) = JS.Num z.
Proof.
  unfold persisted. simpl stored. now rewrite or_else_toString, parseInt_toString.
Qed.


(** * Facts about the sort engines *)

Section EngineFacts.
Context {A : Type} (comparefn : A -> A -> Z).

Lemma shift_left_perm (element : A) (sorted_rev : list A) :
  Permutation (element :: sorted_rev) (JS.shift_left comparefn element sorted_rev).
Proof.
  induction sorted_rev as [|tmp rest IH]; simpl.
  - apply Permutation_refl.
  - destruct (0 <? comparefn tmp element).
    + eapply perm_trans; [apply perm_swap|]. now apply perm_skip.
    + apply Permutation_refl.
Qed.

Lemma InsertionSort_perm (a : list A) :
  Permutation a (JS.InsertionSort comparefn a).
Proof.
  unfold JS.InsertionSort.
  assert (H : forall acc,
    Permutation (List.rev acc ++ a)
      (List.rev (fold_left (fun s e => JS.shift_left comparefn e s) a acc))).
  { induction a as [|x a IH]; intros acc; simpl.
    - now rewrite app_nil_r.
    - eapply perm_trans; [|apply IH].
      change (x :: a) with ([x] ++ a)%list. rewrite app_assoc.
      change (List.rev acc ++ [x])%list with (List.rev (x :: acc)).
      apply Permutation_app_tail.
      eapply perm_trans; [apply Permutation_sym, Permutation_rev|].
      eapply perm_trans; [apply shift_left_perm|].
      apply Permutation_rev. }
  apply (H []).
Qed.

Lemma run_after_split (descending : bool) (previous : A) (l : list A) :
  let (run, rest) := JS.run_after comparefn descending previous l in
  l = (run ++ rest)%list.
Proof.
  revert previous. induction l as [|current l IH]; intros previous; simpl.
  - reflexivity.
  - destruct (if descending then _ else _).
    + specialize (IH current).
      destruct (JS.run_after comparefn descending current l) as [run rest].
      simpl. now f_equal.
    + reflexivity.
Qed.

Lemma CountAndMakeRun_perm (l : list A) :
  let (run, rest) := JS.CountAndMakeRun comparefn l in
  Permutation l (run ++ rest).
Proof.
  destruct l as [|low [|next l']]; simpl; try (rewrite ?app_nil_r; apply Permutation_refl).
  pose proof (run_after_split (comparefn next low <? 0) next l') as H.
  destruct (JS.run_after comparefn (comparefn next low <? 0) next l') as [run rest].
  rewrite H.
  destruct (comparefn next low <? 0).
  - change (low :: next :: run ++ rest)%list with ((low :: next :: run) ++ rest)%list.
    apply Permutation_app_tail, Permutation_rev.
  - apply Permutation_refl.
Qed.

(** The binary search ends within its fuel: any fuel above the width of the
    interval gives the same place, between the two bounds. *)
Lemma search_fuel (fuel fuel' : nat) (pivot : A) (sorted : list A)
    (left right : nat) :
  (right - left < fuel)%nat -> (right - left < fuel')%nat ->
  JS.search comparefn fuel pivot sorted left right
  = JS.search comparefn fuel' pivot sorted left right.
Proof.
  revert fuel' left right.
  induction fuel as [|fuel IH]; intros fuel' left right Hf Hf'; [lia|].
  destruct fuel' as [|fuel']; [lia|]. cbn [JS.search].
  destruct (Nat.ltb_spec left right) as [Hlt|Hge]; [|reflexivity].
  assert (Hhalf : ((right - left) / 2 < right - left)%nat)
    by (apply Nat.div_lt; lia).
  destruct (_ <? 0); apply IH; lia.
Qed.

Lemma search_bounds (fuel : nat) (pivot : A) (sorted : list A) (left right : nat) :
  (left <= right)%nat ->
  (left <= JS.search comparefn fuel pivot sorted left right <= right)%nat.
Proof.
  revert left right.
  induction fuel as [|fuel IH]; intros left right Hle; cbn [JS.search].
  - lia.
  - destruct (Nat.ltb_spec left right) as [Hlt|Hge]; [|lia].
    assert (Hhalf : ((right - left) / 2 < right - left)%nat)
      by (apply Nat.div_lt; lia).
    destruct (_ <? 0).
    + specialize (IH left (left + (right - left) / 2)%nat). lia.
    + specialize (IH (S (left + (right - left) / 2)) right). lia.
Qed.

Lemma insert_pivot_perm (sorted : list A) (pivot : A) :
  Permutation (pivot :: sorted) (JS.insert_pivot comparefn sorted pivot).
Proof.
  unfold JS.insert_pivot.
  set (left := JS.search _ _ _ _ _ _).
  rewrite <- (firstn_skipn left sorted) at 1.
  apply Permutation_middle.
Qed.

Lemma TimSort_perm (a : list A) : Permutation a (JS.TimSort comparefn a).
Proof.
  unfold JS.TimSort.
  pose proof (CountAndMakeRun_perm a) as H.
  destruct (JS.CountAndMakeRun comparefn a) as [run rest].
  eapply perm_trans; [exact H|]. clear H.
  revert run. induction rest as [|pivot rest IH]; intros run; simpl.
  - now rewrite app_nil_r.
  - eapply perm_trans; [|apply IH].
    eapply perm_trans; [apply Permutation_sym, Permutation_middle|].
    apply (Permutation_app_tail rest (insert_pivot_perm run pivot)).
Qed.

(** With a comparator that never answers a negative number, the initial run
    is the whole array and nothing is left to insert. *)
Lemma run_after_never_negative (previous : A) (l : list A) :
  (forall x y, 0 <= comparefn x y) ->
  JS.run_after comparefn false previous l = (l, []).
Proof.
  intros Hc. revert previous. induction l as [|current l IH]; intros previous; simpl.
  - reflexivity.
  - destruct (Z.leb_spec 0 (comparefn current previous)) as [_|Hlt].
    + now rewrite IH.
    + specialize (Hc current previous). lia.
Qed.

Lemma TimSort_never_negative (a : list A) :
  (forall x y, 0 <= comparefn x y) -> JS.TimSort comparefn a = a.
Proof.
  intros Hc. unfold JS.TimSort.
  destruct a as [|low [|next l']]; try reflexivity.
  simpl.
  destruct (Z.ltb_spec (comparefn next low) 0) as [Hlt|_].
  - specialize (Hc next low). lia.
  - now rewrite run_after_never_negative.
Qed.
End EngineFacts.

Lemma V8_InsertionSort_rearranges : JS.rearranges JS.V8_InsertionSort.
Proof. intros A cmp l. apply InsertionSort_perm. Qed.

Lemma V8_TimSort_rearranges : JS.rearranges JS.V8_TimSort.
Proof. intros A cmp l. apply TimSort_perm. Qed.

Lemma by_time_spec (a b : Event.t) :
  by_time a b = if Event.time b <? Event.time a then 1 else 0.
Proof. reflexivity. Qed.

Lemma by_time_never_negative (a b : Event.t) : 0 <= by_time a b.
Proof. rewrite by_time_spec. destruct (_ <? _); lia. Qed.

(** On V8 7.0 and later the comparator of the scripts leaves every array as
    it was. *)
Lemma V8_TimSort_by_time (events : list Event.t) :
  JS.Array_sort (SortEngine := JS.V8_TimSort) Event.t by_time events = events.
Proof. apply TimSort_never_negative, by_time_never_negative. Qed.





(** * Facts about comparisons and messages *)

Lemma newer_than_number (T : Z) (ev : Event.t) :
  newer_than (JS.Num T) ev = (T <? Event.time ev).
Proof. reflexivity. Qed.

Lemma newer_than_reads (v : JS.value) (ev : Event.t) :
  newer_than v ev = true ->
  exists n, JS.ToNumber v = Some n /\ n < Event.time ev.
Proof.
  unfold newer_than, JS.gt. simpl.
  destruct v as [| |z| |s|o]; simpl; try discriminate.
  - intros H. exists 0. split; [reflexivity|]. now apply Z.ltb_lt.
  - intros H. exists z. split; [reflexivity|]. now apply Z.ltb_lt.
  - unfold JS.ToNumber; simpl.
    destruct (JS.StringToNumber s) as [n|]; [|discriminate].
    intros H. exists n. split; [reflexivity|]. now apply Z.ltb_lt.
Qed.

Lemma newer_than_object (o ev : Event.t) : newer_than (JS.Obj o) ev = false.
Proof. reflexivity. Qed.

Lemma newer_than_undefined (ev : Event.t) : newer_than JS.Undefined ev = false.
Proof. reflexivity. Qed.

Lemma when_valid (t : Z) :
  Moment.valid_time t = true ->
  Moment.when t = inr (Moment.format_h_m_a Moment.America_Vancouver t).
Proof. unfold Moment.when, Moment.Date_toISOString. now intros ->. Qed.

Lemma Meetup_message_of_valid (ev : Event.t) :
  valid_event ev -> Meetup.message_of ev = inr (Meetup.rendered ev).
Proof. intros H. unfold Meetup.message_of. now rewrite (when_valid _ H). Qed.

Lemma Meetup_send_each_valid (to : destination) (events : list Event.t) :
  Forall valid_event events ->
  Meetup.send_each to events
  = (map (fun ev => Send to (Meetup.rendered ev)) events, None).
Proof.
  induction 1 as [|ev rest Hev _ IH]; simpl.
  - reflexivity.
  - now rewrite (Meetup_message_of_valid ev Hev), IH.
Qed.

Lemma Meetup_send_each_only_sends (to : destination) (events : list Event.t) :
  Forall (fun e => exists m, e = Send to m) (fst (Meetup.send_each to events)).
Proof.
  induction events as [|ev rest IH]; simpl.
  - constructor.
  - destruct (Meetup.message_of ev) as [e|m]; simpl; [constructor|].
    destruct (Meetup.send_each to rest) as [fx thrown]; simpl in *.
    constructor; [now exists m|exact IH].
Qed.

Lemma sent_app (fx fx' : list effect) : sent (fx ++ fx') = (sent fx ++ sent fx')%list.
Proof. unfold sent. now rewrite flat_map_app. Qed.

Lemma sent_sends (to : destination) (render : Event.t -> Message.t) (events : list Event.t) :
  sent (map (fun ev => Send to (render ev)) events) = map render events.
Proof. induction events as [|ev rest IH]; simpl; [|rewrite <- IH]; reflexivity. Qed.

Lemma sent_unobserved (thrown : option JS.error) : sent (Meetup.unobserved thrown) = [].
Proof. now destruct thrown. Qed.

(** * The on-demand command *)

Section Command.
Context {engine : JS.SortEngine}.
Variable env : Process.env.

Lemma announceEvents_state (st : state) (events : list Event.t)
    (to : destination) (set : outcome) :
  Forall valid_event events ->
  fst (fst (Meetup.announceEvents st events to set))
  = match redis st, events with
    | Some _, first :: others =>
        let newest := Event.time (last_of first others) in
        match set with
        | Works =>
            with_lastAnnounced (with_stored st (Some (JS.Number_toString newest)))
              (JS.Num newest)
        | Fails => with_lastAnnounced st (JS.Num newest)
        end
    | _, _ => st
    end.
Proof.
  intros Hv. unfold Meetup.announceEvents.
  rewrite (Meetup_send_each_valid to events Hv).
  destruct (redis st); [|reflexivity].
  destruct events; [reflexivity|]. now destruct set.
Qed.

Lemma announceEvents_without_client (st : state) (events : list Event.t)
    (to : destination) (set : outcome) :
  redis st = None -> fst (fst (Meetup.announceEvents st events to set)) = st.
Proof.
  intros Hr. unfold Meetup.announceEvents.
  destruct (Meetup.send_each to events) as [fx [e|]]; [reflexivity|].
  now rewrite Hr.
Qed.

Lemma cmdShowUpcoming_state (st : state) (reply : http_reply) (set : outcome) :
  fst (Meetup.cmdShowUpcoming env st reply set)
  = fst (fst (Meetup.announceEvents st (Meetup.listing env reply) Requester set)).
Proof.
  unfold Meetup.cmdShowUpcoming, Meetup.listing.
  destruct reply as [| |events]; simpl.
  - unfold Meetup.announceEvents; simpl. now destruct (redis st).
  - unfold Meetup.announceEvents; simpl. now destruct (redis st).
  - now destruct (Meetup.announceEvents _ _ _ _) as [[st' fx'] thrown].
Qed.
End Command.

(** C1, as amended.  The on-demand command leaves the fields and the key as
    they are when no redis client is connected or when the fetch yields no
    upcoming event; with a client and a non-empty listing of events with
    valid times it assigns [lastAnnounced] the time of the last event listed
    and, when the write works, stores that time under the key. *)
Theorem command_writes_watermark {engine : JS.SortEngine} (env : Process.env)
    (st : state) (reply : http_reply) (set : outcome) :
  let st' := fst (Meetup.cmdShowUpcoming env st reply set) in
  (redis st = None \/ Meetup.listing env reply = [] -> st' = st) /\
  (forall first others,
     redis st <> None ->
     Meetup.listing env reply = first :: others ->
     Forall valid_event (first :: others) ->
     lastAnnounced st' = JS.Num (Event.time (last_of first others)) /\
     stored st' = match set with
                  | Works => Some (JS.Number_toString (Event.time (last_of first others)))
                  | Fails => stored st
                  end).
Proof.
  cbv zeta. rewrite cmdShowUpcoming_state. split.
  - intros [Hr|Hl].
    + now apply announceEvents_without_client.
    + rewrite Hl. unfold Meetup.announceEvents. simpl. now destruct (redis st).
  - intros first others Hr Hl Hv. rewrite Hl, (announceEvents_state _ _ _ _ Hv).
    destruct (redis st); [|congruence]. now destruct set.
Qed.

Lemma command_writes_watermark_witness :
  let st := connected 1000 in
  let reply := Events [event "A" 1500 "upcoming"; event "B" 2000 "upcoming"] in
  let st' := fst (Meetup.cmdShowUpcoming (engine := JS.V8_TimSort) sample_env st reply Works) in
  lastAnnounced st' = JS.Num 2000 /\ stored st' = Some "2000".
Proof.
  refine (proj2 (command_writes_watermark (engine := JS.V8_TimSort) sample_env
                   (connected 1000)
                   (Events [event "A" 1500 "upcoming"; event "B" 2000 "upcoming"])
                   Works)
            (event "A" 1500 "upcoming") [event "B" 2000 "upcoming"] _ _ _).
  - discriminate.
  - reflexivity.
  - repeat constructor.
Defined.

(** C1, as stated, fails: with a connected client the command on one upcoming
    event moves both the field and the key. *)
Lemma command_moves_watermark :
  let st := connected 1000 in
  let st' :=
    fst (Meetup.cmdShowUpcoming (engine := JS.V8_TimSort) sample_env st
           (Events [event "A" 1500 "upcoming"]) Works) in
  lastAnnounced st' <> lastAnnounced st /\ persisted st' <> persisted st.
Proof. vm_compute. split; discriminate. Qed.


(** * The scheduled cycle of the script with the command *)

Lemma Permutation_filter_same {A : Type} (f : A -> bool) (l l' : list A) :
  Permutation l l' -> Permutation (filter f l) (filter f l').
Proof.
  induction 1 as [|x l l' _ IH|x y l|l l' l'' _ IH1 _ IH2]; simpl.
  - constructor.
  - destruct (f x); [now constructor|exact IH].
  - destruct (f x), (f y); try apply Permutation_refl. apply perm_swap.
  - now apply perm_trans with (filter f l').
Qed.

Lemma ascending_strong (events : list Event.t) :
  ascending events ->
  StronglySorted (fun a b => Event.time a <= Event.time b) events.
Proof.
  apply Sorted_StronglySorted. intros a b c Hab Hbc. lia.
Qed.

Lemma ascending_filter (f : Event.t -> bool) (events : list Event.t) :
  ascending events -> ascending (filter f events).
Proof.
  intros H. apply StronglySorted_Sorted.
  apply ascending_strong in H.
  induction H as [|a l _ IH Hall]; simpl.
  - constructor.
  - destruct (f a); [|exact IH].
    constructor; [exact IH|].
    apply Forall_forall. intros x Hx. apply filter_In in Hx.
    rewrite Forall_forall in Hall. now apply Hall.
Qed.

Lemma ascendingb_spec (events : list Event.t) :
  ascendingb events = true <-> ascending events.
Proof.
  unfold ascending. induction events as [|a [|b rest] IH].
  - split; [constructor|reflexivity].
  - split; [repeat constructor|reflexivity].
  - change (ascendingb (a :: b :: rest))
      with ((Event.time a <=? Event.time b) && ascendingb (b :: rest)).
    rewrite andb_true_iff, Z.leb_le, IH. split.
    + intros [Hab Hs]. constructor; [exact Hs|now constructor].
    + intros Hs. inversion Hs as [|? ? Hs' Hhd]; subst.
      inversion Hhd; subst. now split.
Qed.

Lemma last_cons (x d : Event.t) (l : list Event.t) : last (x :: l) d = last l x.
Proof.
  revert x d. induction l as [|y l IH]; intros x d; [reflexivity|].
  change (last (x :: y :: l) d) with (last (y :: l) d).
  now rewrite (IH y d), (IH y x).
Qed.

Lemma last_of_member (first : Event.t) (others : list Event.t) :
  In (last_of first others) (first :: others).
Proof.
  unfold last_of. revert first.
  induction others as [|x rest IH]; intros first; [now left|].
  right. rewrite last_cons. apply IH.
Qed.

(** In an ascending array the last element carries the largest time. *)
Lemma last_is_max (first : Event.t) (others : list Event.t) :
  ascending (first :: others) ->
  Event.time (last_of first others) = max_time first others.
Proof.
  unfold last_of, max_time, ascending. revert first.
  induction others as [|x rest IH]; intros first Hs.
  - reflexivity.
  - inversion Hs as [|? ? Hs' Hhd]; subst. inversion Hhd; subst.
    simpl map. simpl fold_left. rewrite Z.max_r by assumption.
    rewrite <- (IH x Hs'). now rewrite last_cons.
Qed.

Section Scheduled.
Context {engine : JS.SortEngine}.
Variable env : Process.env.

Lemma cycle_state (st : state) (reply : http_reply) (set : outcome) :
  fst (Meetup.checkForAndAnnounceNewMeetups env st reply set)
  = fst (fst (Meetup.announceEvents st (Meetup.unannounced env st reply)
                (Room (Some ("#" ++ channel_text env)%string)) set)).
Proof.
  unfold Meetup.checkForAndAnnounceNewMeetups, Meetup.unannounced, Meetup.listing.
  destruct reply as [| |events]; simpl.
  - unfold Meetup.announceEvents; simpl. now destruct (redis st).
  - unfold Meetup.announceEvents; simpl. now destruct (redis st).
  - destruct (filter _ _) as [|first others] eqn:E.
    + unfold Meetup.announceEvents; simpl. now destruct (redis st).
    + now destruct (Meetup.announceEvents _ _ _ _) as [[st' fx'] thrown].
Qed.

Lemma cycle_sent (st : state) (reply : http_reply) (set : outcome) :
  Forall valid_event (Meetup.unannounced env st reply) ->
  sent (snd (Meetup.checkForAndAnnounceNewMeetups env st reply set))
  = map Meetup.rendered (Meetup.unannounced env st reply).
Proof.
  unfold Meetup.checkForAndAnnounceNewMeetups, Meetup.unannounced, Meetup.listing.
  destruct reply as [| |events]; simpl; try reflexivity.
  destruct (filter _ _) as [|first others] eqn:E; intros Hv.
  - reflexivity.
  - unfold Meetup.announceEvents.
    rewrite (Meetup_send_each_valid _ _ Hv).
    set (sends := map _ (first :: others)).
    assert (Hs : sent sends = map Meetup.rendered (first :: others))
      by apply sent_sends.
    destruct (redis st), set; cbn [snd fst];
      unfold sent in *; cbn [flat_map app Meetup.unobserved];
      rewrite ?flat_map_app, Hs; cbn [flat_map app];
      now rewrite ?app_nil_r.
Qed.

Lemma listing_members (Hre : JS.rearranges engine) (events : list Event.t) :
  Permutation (filter is_upcoming events) (Meetup.listing env (Events events)).
Proof. apply Hre. Qed.
End Scheduled.

(** On every engine, with a numeric watermark [T], one scheduled cycle
    announces, once each, the upcoming fetched events whose time is above
    [T], in the order the sorted listing has them. *)
Theorem scheduled_cycle_announces_newer {engine : JS.SortEngine}
    (env : Process.env) (st : state) (T : Z) (events : list Event.t)
    (set : outcome) :
  JS.rearranges engine ->
  lastAnnounced st = JS.Num T ->
  Forall valid_event events ->
  exists announced,
    sent (snd (Meetup.checkForAndAnnounceNewMeetups env st (Events events) set))
    = map Meetup.rendered announced /\
    Permutation announced
      (filter (fun ev => T <? Event.time ev) (filter is_upcoming events)) /\
    (ascending (Meetup.listing env (Events events)) -> ascending announced).
Proof.
  intros Hre HT Hv.
  set (announced := filter (newer_than (lastAnnounced st))
                      (Meetup.listing env (Events events))).
  assert (Hp : Permutation announced
                 (filter (fun ev => T <? Event.time ev) (filter is_upcoming events))).
  { unfold announced. rewrite HT.
    apply Permutation_sym, (Permutation_filter_same (newer_than (JS.Num T))).
    now apply listing_members. }
  exists announced. repeat split.
  - apply cycle_sent. change (Forall valid_event announced).
    eapply Permutation_Forall; [apply Permutation_sym, Hp|].
    apply Forall_forall. intros ev Hin.
    apply filter_In in Hin as [Hin _]. apply filter_In in Hin as [Hin _].
    rewrite Forall_forall in Hv. now apply Hv.
  - exact Hp.
  - apply ascending_filter.
Qed.


(** C2.  On V8 7.0 and later the comparator never reorders: with watermark
    1000 and the fetch [B (2000); A (1500)] the scheduled cycle of either
    script publishes B before A, which is not ascending.  In
    [scripts/meetup.js], moreover, once a cycle has saved, the watermark in
    memory is an event object: with 1500 under the key and the fetch
    [C (3000)] the next cycle announces nothing, on either engine. *)
Theorem scheduled_cycle_keeps_fetch_order :
  let B := event "B" 2000 "upcoming" in
  let A := event "A" 1500 "upcoming" in
  let C := event "C" 3000 "upcoming" in
  let fx := snd (Meetup.checkForAndAnnounceNewMeetups (engine := JS.V8_TimSort)
                   sample_env (connected 1000) (Events [B; A]) Works) in
  let run (engine : JS.SortEngine) :=
    ScriptsMeetup._checkForAndAnnounceNewMeetups sample_env (loaded 1000)
      (Events [B; A]) Works in
  let next (engine : JS.SortEngine) :=
    ScriptsMeetup._checkForAndAnnounceNewMeetups sample_env (fst (run engine))
      (Events [C]) Works in
  (sent fx = map Meetup.rendered [B; A] /\
   sent (snd (run JS.V8_TimSort)) = map ScriptsMeetup.rendered [B; A] /\
   ascendingb [B; A] = false) /\
  (persisted (fst (run JS.V8_TimSort)) = JS.Num 1500 /\
   persisted (fst (run JS.V8_InsertionSort)) = JS.Num 1500 /\
   filter (fun ev => 1500 <? Event.time ev) [C] = [C] /\
   sent (snd (next JS.V8_TimSort)) = [] /\
   sent (snd (next JS.V8_InsertionSort)) = []).
Proof. vm_compute. repeat split. Qed.

(** Where the listing is ascending: after a cycle that announced a non-empty
    batch and whose write worked, the field and the key hold the largest
    time of the batch. *)
Theorem scheduled_cycle_saves_max_of_ascending {engine : JS.SortEngine}
    (env : Process.env) (st : state) (reply : http_reply)
    (first : Event.t) (others : list Event.t) :
  redis st <> None ->
  Meetup.unannounced env st reply = first :: others ->
  Forall valid_event (first :: others) ->
  ascending (Meetup.listing env reply) ->
  let st' := fst (Meetup.checkForAndAnnounceNewMeetups env st reply Works) in
  lastAnnounced st' = JS.Num (max_time first others) /\
  stored st' = Some (JS.Number_toString (max_time first others)) /\
  persisted st' = JS.Num (max_time first others).
Proof.
  intros Hr Hf Hv Hs. cbv zeta.
  rewrite cycle_state, Hf, (announceEvents_state _ _ _ _ Hv).
  assert (Hm : Event.time (last_of first others) = max_time first others).
  { apply last_is_max. rewrite <- Hf. now apply ascending_filter. }
  destruct (redis st); [|congruence]. cbv zeta. rewrite Hm.
  repeat split.
  apply (persisted_after_write st).
Qed.

(** C3.  The value saved is the time of the last element, not the largest:
    on V8 7.0 and later, watermark 1000 and the fetch [B (2000); A (1500)]
    leave 1500 in the field and under the key, while the largest time
    announced is 2000.  [scripts/meetup.js] takes the last element of the
    whole fetch: after [A (1500); old (500)] only A is announced and 500 is
    saved, on either engine. *)
Theorem scheduled_cycle_saves_last_listed :
  let B := event "B" 2000 "upcoming" in
  let A := event "A" 1500 "upcoming" in
  let old := event "old" 500 "upcoming" in
  let st' := fst (Meetup.checkForAndAnnounceNewMeetups (engine := JS.V8_TimSort)
                    sample_env (connected 1000) (Events [B; A]) Works) in
  let run (engine : JS.SortEngine) :=
    ScriptsMeetup._checkForAndAnnounceNewMeetups sample_env (loaded 1000)
      (Events [A; old]) Works in
  (lastAnnounced st' = JS.Num 1500 /\ stored st' = Some "1500" /\ max_time B [A] = 2000) /\
  (sent (snd (run JS.V8_TimSort)) = [ScriptsMeetup.rendered A] /\
   stored (fst (run JS.V8_TimSort)) = Some "500" /\
   lastAnnounced (fst (run JS.V8_TimSort)) = JS.Obj old /\
   run JS.V8_InsertionSort = run JS.V8_TimSort).
Proof. vm_compute. repeat split. Qed.

(** In the script with the command, when the filter keeps nothing the cycle
    sends nothing, writes nothing and leaves the state as it was. *)
Theorem scheduled_cycle_without_news {engine : JS.SortEngine}
    (env : Process.env) (st : state) (reply : http_reply) (set : outcome) :
  Meetup.unannounced env st reply = [] ->
  let (st', fx) := Meetup.checkForAndAnnounceNewMeetups env st reply set in
  st' = st /\ sent fx = [] /\ existsb is_store_write fx = false.
Proof.
  unfold Meetup.checkForAndAnnounceNewMeetups, Meetup.unannounced, Meetup.listing.
  destruct reply as [| |events]; simpl; intros Hf; try (now repeat split).
  rewrite Hf. simpl. now repeat split.
Qed.

(** C4.  [scripts/meetup.js] tests the whole fetch, not the filtered part:
    loaded with 1000 under the key, on the fetch [old (500)] it sends
    nothing, yet it writes 500 under the key and puts the event into
    [lastAnnounced]. *)
Theorem scripts_cycle_without_news_still_saves :
  let old := event "old" 500 "upcoming" in
  let st := loaded 1000 in
  let run (engine : JS.SortEngine) :=
    ScriptsMeetup._checkForAndAnnounceNewMeetups sample_env st (Events [old]) Works in
  filter (newer_than (lastAnnounced st)) [old] = [] /\
  sent (snd (run JS.V8_TimSort)) = [] /\
  persisted st = JS.Num 1000 /\ persisted (fst (run JS.V8_TimSort)) = JS.Num 500 /\
  lastAnnounced st = JS.Str "1000" /\
  lastAnnounced (fst (run JS.V8_TimSort)) = JS.Obj old /\
  run JS.V8_InsertionSort = run JS.V8_TimSort.
Proof. vm_compute. repeat split. Qed.


(** * Formatting *)


(** C6.  The pattern [h:ma] does not pad the minute: the event at
    2024-01-01T19:00:00-08:00 (1704164400000) gets "7:0pm" in both scripts,
    where the zero-padded pattern gives "7:00pm". *)
Theorem when_field_drops_minute_padding :
  let ev := event "A" 1704164400000 "upcoming" in
  Moment.America_Vancouver (Event.time ev) = -480 /\
  option_map (Message.field_named "When")
    (match Meetup.message_of ev with inr m => Some m | inl _ => None end)
  = Some (Some "7:0pm") /\
  option_map (Message.field_named "When")
    (match ScriptsMeetup.message_of ev with inr m => Some m | inl _ => None end)
  = Some (Some "7:0pm") /\
  Moment.format_h_mm_a Moment.America_Vancouver (Event.time ev) = "7:00pm".
Proof. vm_compute. repeat split. Qed.

(** * The command's pattern *)

Lemma same_char_fold (p c : ascii) :
  RegExp.same_char true p c = true <-> RegExp.canonicalize p = RegExp.canonicalize c.
Proof. apply Ascii.eqb_eq. Qed.

Lemma matches_here_fold (p s : string) :
  RegExp.matches_here true p s = true <->
  exists mid post, s = (mid ++ post)%string /\ RegExp.fold_case mid = RegExp.fold_case p.
Proof.
  revert s. induction p as [|a p IH]; intros s;
    cbn [RegExp.matches_here RegExp.fold_case].
  - split; [|reflexivity]. intros _. now exists EmptyString, s.
  - destruct s as [|c s].
    + split; [discriminate|].
      intros (mid & post & Hs & Hf). destruct mid; discriminate.
    + rewrite andb_true_iff, same_char_fold, IH. split.
      * intros (Hc & mid & post & -> & Hf).
        exists (String c mid), post. simpl. now rewrite Hf, Hc.
      * intros (mid & post & Hs & Hf).
        destruct mid as [|c' mid]; [discriminate|].
        simpl in Hs, Hf. injection Hs as -> ->. injection Hf as Hc Hf.
        split; [now symmetry|]. now exists mid, post.
Qed.

Lemma matches_somewhere_fold (p s : string) :
  RegExp.matches_somewhere true p s = true <->
  exists pre mid post,
    s = (pre ++ mid ++ post)%string /\ RegExp.fold_case mid = RegExp.fold_case p.
Proof.
  induction s as [|c s IH].
  - simpl. rewrite orb_false_r, matches_here_fold. split.
    + intros (mid & post & Hs & Hf). now exists EmptyString, mid, post.
    + intros (pre & mid & post & Hs & Hf).
      destruct pre; [|discriminate]. now exists mid, post.
  - change (RegExp.matches_somewhere true p (String c s))
      with (RegExp.matches_here true p (String c s)
            || RegExp.matches_somewhere true p s).
    rewrite orb_true_iff, matches_here_fold, IH. split.
    + intros [(mid & post & Hs & Hf)|(pre & mid & post & Hs & Hf)].
      * now exists EmptyString, mid, post.
      * exists (String c pre), mid, post. simpl. now rewrite Hs.
    + intros (pre & mid & post & Hs & Hf).
      destruct pre as [|c' pre].
      * left. now exists mid, post.
      * right. simpl in Hs. injection Hs as -> ->. now exists pre, mid, post.
Qed.

(** C7, as amended.  The one listener the constructor registers has the
    pattern [/show upcoming meetups/i]: it matches exactly the texts that
    contain the phrase "show upcoming meetups" up to the case of letters. *)
Theorem command_pattern_matches (text : string) :
  Meetup.triggered text = true <->
  exists pre phrase post,
    text = (pre ++ phrase ++ post)%string /\
    RegExp.fold_case phrase = "SHOW UPCOMING MEETUPS".
Proof.
  unfold Meetup.triggered, Meetup.listeners, RegExp.test. simpl existsb.
  rewrite orb_false_r. apply matches_somewhere_fold.
Qed.

Lemma command_pattern_matches_witness :
  Meetup.triggered "hubot Show Upcoming MEETUPS please" = true.
Proof.
  apply (proj2 (command_pattern_matches "hubot Show Upcoming MEETUPS please")).
  exists "hubot ", "Show Upcoming MEETUPS", " please". split; reflexivity.
Defined.

(** C7, as stated, fails: the phrase of the claim does not trigger the
    command, and another phrase does. *)
Lemma show_upcoming_events_not_a_command :
  Meetup.triggered "show upcoming events" = false /\
  Meetup.triggered "Show Upcoming Meetups" = true.
Proof. split; reflexivity. Qed.

(** * Fetch failures *)

(** C8, as amended.  When the fetch fails on transport or on an unparsable
    body, the scheduled cycle of either script makes its one request and
    stops: it sends nothing, writes nothing and changes no state, and the
    script itself logs nothing. *)
Theorem fetch_failure_aborts_cycle {engine : JS.SortEngine} (env : Process.env)
    (st : state) (reply : http_reply) (set : outcome) :
  reply = NetworkError \/ reply = BadBody ->
  (let (st', fx) := Meetup.checkForAndAnnounceNewMeetups env st reply set in
   quiet_abort st st' fx) /\
  (let (st', fx) := ScriptsMeetup._checkForAndAnnounceNewMeetups env st reply set in
   quiet_abort st st' fx).
Proof.
  intros [-> | ->]; split; simpl; unfold quiet_abort; simpl; intuition.
Qed.

Lemma fetch_failure_aborts_cycle_witness :
  (let (st', fx) :=
     Meetup.checkForAndAnnounceNewMeetups (engine := JS.V8_TimSort) sample_env
       (connected 1000) NetworkError Works in
   quiet_abort (connected 1000) st' fx) /\
  (let (st', fx) :=
     ScriptsMeetup._checkForAndAnnounceNewMeetups (engine := JS.V8_TimSort) sample_env
       (connected 1000) NetworkError Works in
   quiet_abort (connected 1000) st' fx).
Proof.
  apply (fetch_failure_aborts_cycle (engine := JS.V8_TimSort) sample_env
           (connected 1000) NetworkError Works).
  left. reflexivity.
Defined.

(** C8, as stated, fails: on a transport error the cycle logs nothing. *)
Lemma fetch_failure_is_not_logged :
  existsb is_log
    (snd (Meetup.checkForAndAnnounceNewMeetups (engine := JS.V8_TimSort) sample_env
            (connected 1000) NetworkError Works)) = false /\
  existsb is_log
    (snd (ScriptsMeetup._checkForAndAnnounceNewMeetups (engine := JS.V8_TimSort)
            sample_env (loaded 1000) NetworkError Works)) = false.
Proof. split; reflexivity. Qed.

(** * Without the store *)

Lemma initialize_without_store (env : Process.env)
    (content : option string) (create get : outcome) :
  JS.truthy (Process.REDIS_URL env) = false \/ create = Fails ->
  fst (Meetup.initialize env (with_stored Meetup.constructor content) create get)
  = mk_state None JS.Undefined content
      (if JS.truthy (NOTIFICATION_CHANNEL env)
       then Some (MEETUP_CHECK_INTERVAL env) else None).
Proof.
  intros H. unfold Meetup.initialize.
  assert (E : (if JS.truthy (Process.REDIS_URL env)
               then match create with
                    | Works => (with_redis (with_stored Meetup.constructor content)
                                  (Some Client), [])
                    | Fails => (with_stored Meetup.constructor content,
                                [LoggerError JS.StoreError])
                    end
               else (with_stored Meetup.constructor content, []))
              = (with_stored Meetup.constructor content,
                 if JS.truthy (Process.REDIS_URL env)
                 then [LoggerError JS.StoreError] else [])).
  { destruct H as [-> | ->]; [reflexivity|].
    now destruct (JS.truthy (Process.REDIS_URL env)). }
  rewrite E. simpl. now destruct (JS.truthy (NOTIFICATION_CHANNEL env)).
Qed.

Lemma scripts_initialize_without_store (env : Process.env)
    (content : option string) (create get : outcome) :
  JS.truthy (Process.REDIS_URL env) = false \/ create = Fails ->
  fst (ScriptsMeetup.initialize env (with_stored ScriptsMeetup.constructor content)
         create get)
  = mk_state None JS.Undefined content
      (if JS.truthy (NOTIFICATION_CHANNEL env)
       then Some (MEETUP_CHECK_INTERVAL env) else None).
Proof.
  intros H. unfold ScriptsMeetup.initialize.
  destruct H as [-> | ->].
  - simpl. now destruct (JS.truthy (NOTIFICATION_CHANNEL env)).
  - destruct (JS.truthy (Process.REDIS_URL env)); simpl;
      now destruct (JS.truthy (NOTIFICATION_CHANNEL env)).
Qed.

Lemma rearranges_nil {engine : JS.SortEngine} (A : Type) (cmp : A -> A -> Z) :
  JS.rearranges engine -> JS.Array_sort A cmp [] = [].
Proof. intros Hre. apply Permutation_nil, Hre. Qed.

(** C5, as amended.  When no connection URL is set or the client cannot be
    created, [initialize] leaves [redis] null and [lastAnnounced] undefined
    and still arms the timer if a channel is configured.  Each firing of the
    timer then requests the events but sends nothing, writes nothing and
    changes no state, in either script; the command sends the requester one
    message per upcoming event and changes no state. *)
Theorem store_unavailable {engine : JS.SortEngine} (env : Process.env)
    (content : option string) (create get : outcome) :
  JS.rearranges engine ->
  JS.truthy (Process.REDIS_URL env) = false \/ create = Fails ->
  let st :=
    fst (Meetup.initialize env (with_stored Meetup.constructor content) create get) in
  redis st = None /\
  lastAnnounced st = JS.Undefined /\
  timer st = (if JS.truthy (NOTIFICATION_CHANNEL env)
              then Some (MEETUP_CHECK_INTERVAL env) else None) /\
  st = fst (ScriptsMeetup.initialize env
              (with_stored ScriptsMeetup.constructor content) create get) /\
  (forall reply set,
     let (st', fx) := Meetup.tick env st reply set in
     st' = st /\ sent fx = [] /\ existsb is_store_write fx = false /\
     (timer st <> None -> existsb is_request fx = true)) /\
  (forall reply set,
     let (st', fx) := ScriptsMeetup.tick env st reply set in
     st' = st /\ sent fx = [] /\ existsb is_store_write fx = false /\
     (timer st <> None -> existsb is_request fx = true)) /\
  (forall events set,
     Forall valid_event events ->
     let (st', fx) := Meetup.cmdShowUpcoming env st (Events events) set in
     st' = st /\
     exists shown,
       Permutation shown (filter is_upcoming events) /\
       fx = HttpGet (events_url env)
            :: map (fun ev => Send Requester (Meetup.rendered ev)) shown).
Proof.
  intros Hre H. cbv zeta.
  rewrite (initialize_without_store env content create get H),
          (scripts_initialize_without_store env content create get H).
  set (st := mk_state _ _ _ _).
  split; [reflexivity|]. split; [reflexivity|]. split; [reflexivity|].
  split; [reflexivity|]. split; [|split].
  - intros reply set. unfold Meetup.tick. simpl timer.
    destruct (JS.truthy (NOTIFICATION_CHANNEL env)).
    + unfold Meetup.checkForAndAnnounceNewMeetups.
      destruct reply as [| |events]; simpl; try (now repeat split).
      assert (E : filter (newer_than JS.Undefined)
                    (JS.Array_sort Event.t by_time (filter is_upcoming events)) = []).
      { apply filter_false. }
      rewrite E. now repeat split.
    + repeat split. intros C. now elim C.
  - intros reply set. unfold ScriptsMeetup.tick. simpl timer.
    destruct (JS.truthy (NOTIFICATION_CHANNEL env)).
    + unfold ScriptsMeetup._checkForAndAnnounceNewMeetups.
      destruct reply as [| |[|first others]]; try (now repeat split).
      assert (E : filter (newer_than (lastAnnounced st)) (first :: others) = []).
      { apply filter_false. }
      rewrite E, (rearranges_nil _ _ Hre). simpl. now repeat split.
    + repeat split. intros C. now elim C.
  - intros events set Hv.
    unfold Meetup.cmdShowUpcoming, Meetup.getUpcomingMeetups, Meetup.announceEvents.
    set (shown := JS.Array_sort Event.t by_time (filter is_upcoming events)).
    assert (Hp : Permutation shown (filter is_upcoming events))
      by apply Permutation_sym, Hre.
    assert (Hs : Forall valid_event shown).
    { eapply Permutation_Forall; [apply Permutation_sym, Hp|].
      apply Forall_forall. intros ev Hin. apply filter_In in Hin as [Hin _].
      rewrite Forall_forall in Hv. now apply Hv. }
    rewrite (Meetup_send_each_valid Requester shown Hs). simpl.
    split; [reflexivity|]. exists shown. split; [exact Hp|].
    now rewrite app_nil_r.
Qed.

Lemma store_unavailable_witness :
  let st := fst (Meetup.initialize no_store_env
                   (with_stored Meetup.constructor None) Works Works) in
  redis st = None /\ lastAnnounced st = JS.Undefined.
Proof.
  pose proof (store_unavailable (engine := JS.V8_TimSort) no_store_env None
                Works Works V8_TimSort_rearranges (or_introl eq_refl)) as H.
  cbv zeta in H. destruct H as (Hr & Hl & _). split; [exact Hr|exact Hl].
Defined.

(** C5, as stated, fails: without a connection URL and with a channel
    configured the timer is armed, and a firing requests the events. *)
Lemma scheduled_cycle_runs_without_store :
  let st := fst (Meetup.initialize no_store_env
                   Meetup.constructor Works Works) in
  let fx := snd (Meetup.tick (engine := JS.V8_TimSort) no_store_env st
                   (Events [event "A" 1500 "upcoming"]) Works) in
  redis st = None /\
  timer st = Some (JS.Num 600000) /\
  fx = [HttpGet "https://api.meetup.com/Surrey-Code-Camp/events";
        LoggerInfo "0 unannounced meetups found"].
Proof. vm_compute. repeat split. Qed.


(** * The watermark over a run of scheduled cycles *)

Lemma not_below_refl (v : JS.value) : not_below v v.
Proof. now left. Qed.

Lemma not_below_trans (a b c : JS.value) :
  not_below b a -> not_below c b -> not_below c a.
Proof.
  intros [->|(x & y & Hx & Hy & Hxy)] [->|(x' & y' & Hx' & Hy' & Hxy')].
  - now left.
  - right. now exists x', y'.
  - right. now exists x, y.
  - right. exists x, y'. rewrite Hy in Hx'. injection Hx' as <-.
    repeat split; try assumption. lia.
Qed.

Section Monotone.
Context {engine : JS.SortEngine}.
Variable env : Process.env.

(** One cycle either leaves the field and the key alone or moves the field
    to the time of an event the filter kept, and the key with it when the
    write works. *)
Lemma cycle_step (st : state) (reply : http_reply) (set : outcome) :
  let st' := fst (Meetup.checkForAndAnnounceNewMeetups env st reply set) in
  st' = st \/
  exists t n,
    JS.ToNumber (lastAnnounced st) = Some n /\ n < t /\
    lastAnnounced st' = JS.Num t /\
    (persisted st' = persisted st \/ persisted st' = JS.Num t).
Proof.
  cbv zeta. rewrite cycle_state. unfold Meetup.announceEvents.
  destruct (Meetup.send_each _ _) as [fx [e|]]; [now left|].
  destruct (redis st); [|now left].
  destruct (Meetup.unannounced env st reply) as [|first others] eqn:E; [now left|].
  right.
  assert (Hin : In (last_of first others) (Meetup.unannounced env st reply)).
  { rewrite E. apply last_of_member. }
  apply filter_In in Hin as [_ Hnew].
  destruct (newer_than_reads _ _ Hnew) as (n & Hn & Hlt).
  exists (Event.time (last_of first others)), n.
  destruct set; repeat split; try assumption.
  - now left.
  - right. apply (persisted_after_write st).
Qed.
End Monotone.

(** After a load that works the field holds what the key reads as. *)
Lemma initialize_loads_persisted (env : Process.env) (content : option string) :
  JS.truthy (Process.REDIS_URL env) = true ->
  let st := fst (Meetup.initialize env (with_stored Meetup.constructor content)
                   Works Works) in
  redis st = Some Client /\ lastAnnounced st = persisted st.
Proof.
  intros H. unfold Meetup.initialize. rewrite H. simpl.
  now destruct (JS.truthy (NOTIFICATION_CHANNEL env)).
Qed.

(** The scenario of section 8 of the specification, whose fetch is already in
    ascending order: watermark 1000, events at 500, 1500 (A) and 2000 (B);
    A then B are announced and 2000 is saved, on either engine. *)
Example scenario_of_the_specification :
  let fetched := [event "old" 500 "upcoming"; event "A" 1500 "upcoming";
                  event "B" 2000 "upcoming"] in
  let run (engine : JS.SortEngine) :=
    Meetup.checkForAndAnnounceNewMeetups sample_env (connected 1000)
      (Events fetched) Works in
  texts (snd (run JS.V8_TimSort)) = ["A"; "B"] /\
  persisted (fst (run JS.V8_TimSort)) = JS.Num 2000 /\
  run JS.V8_InsertionSort = run JS.V8_TimSort.
Proof. vm_compute. repeat split. Qed.

(** In the script with the command, over any run of scheduled cycles
    [lastAnnounced] never goes down, whatever the order of the listing; and
    when the run starts with the key not above the field, as after a load,
    the persisted value never goes down either. *)
Theorem watermark_never_goes_down {engine : JS.SortEngine} (env : Process.env)
    (st : state) (replies : list (http_reply * outcome)) :
  let after := fst (Meetup.cycles env st replies) in
  never_decreases (lastAnnounced st) (map lastAnnounced after) /\
  (not_below (lastAnnounced st) (persisted st) ->
   never_decreases (persisted st) (map persisted after)).
Proof.
  cbv zeta. revert st. induction replies as [|[reply set] later IH]; intros st.
  - simpl. tauto.
  - simpl.
    pose proof (cycle_step env st reply set) as Hstep. cbv zeta in Hstep.
    destruct (Meetup.checkForAndAnnounceNewMeetups env st reply set) as [st' fx].
    specialize (IH st').
    destruct (Meetup.cycles env st' later) as [sts fxs].
    simpl in *. destruct IH as [IHa IHp].
    destruct Hstep as [-> | (t & n & Hn & Hlt & Hla & Hp)].
    + split; [split; [apply not_below_refl|exact IHa]|].
      intros Hsync. split; [apply not_below_refl|now apply IHp].
    + assert (Hup : not_below (lastAnnounced st') (lastAnnounced st)).
      { right. exists n, t. rewrite Hla. repeat split; [assumption|lia]. }
      split; [split; [exact Hup|exact IHa]|].
      intros Hsync. split.
      * destruct Hp as [-> | ->]; [apply not_below_refl|].
        rewrite <- Hla. now apply not_below_trans with (lastAnnounced st).
      * apply IHp. destruct Hp as [-> | ->].
        -- now apply not_below_trans with (lastAnnounced st).
        -- rewrite Hla. apply not_below_refl.
Qed.

(** C9.  In [scripts/meetup.js] every cycle on a non-empty fetch saves the
    time of the last fetched event: loaded with the key at 1000, the fetches
    [A (3000)] and then [C (2000)], each in ascending order, leave 3000 and
    then 2000 under the key, and an event object in [lastAnnounced]. *)
Theorem scripts_watermark_goes_down :
  let A := event "A" 3000 "upcoming" in
  let C := event "C" 2000 "upcoming" in
  let st := loaded 1000 in
  let after (engine : JS.SortEngine) :=
    fst (ScriptsMeetup.cycles sample_env st
           [(Events [A], Works); (Events [C], Works)]) in
  ascending [A] /\ ascending [C] /\
  persisted st = JS.Num 1000 /\
  map persisted (after JS.V8_TimSort) = [JS.Num 3000; JS.Num 2000] /\
  map lastAnnounced (after JS.V8_TimSort) = [JS.Obj A; JS.Obj C] /\
  after JS.V8_InsertionSort = after JS.V8_TimSort /\
  ~ never_decreases (persisted st) (map persisted (after JS.V8_TimSort)).
Proof.
  cbv zeta.
  split; [repeat constructor|]. split; [repeat constructor|].
  split; [reflexivity|]. split; [reflexivity|]. split; [reflexivity|].
  split; [reflexivity|].
  vm_compute. intros (_ & [H | (a & b & Ha & Hb & Hab)] & _).
  - discriminate H.
  - injection Ha as <-. injection Hb as <-. now apply Hab.
Qed.

(** * [scripts/meetup.js] after its first save *)

Lemma Scripts_message_of_valid (env : Process.env) (ev : Event.t) :
  valid_event ev -> ScriptsMeetup.message_of ev = inr (ScriptsMeetup.rendered ev).
Proof. intros H. unfold ScriptsMeetup.message_of. now rewrite (when_valid _ H). Qed.

Lemma Scripts_send_each_valid (env : Process.env) (events : list Event.t) :
  Forall valid_event events ->
  snd (ScriptsMeetup.send_each env events) = None.
Proof.
  induction 1 as [|ev rest Hev _ IH]; simpl.
  - reflexivity.
  - rewrite (Scripts_message_of_valid env ev Hev).
    now destruct (ScriptsMeetup.send_each env rest).
Qed.

Section ObjectWatermark.
Context {engine : JS.SortEngine}.
Variable env : Process.env.
Hypothesis Hre : JS.rearranges engine.

(** With an event object in [lastAnnounced] a cycle sends nothing and
    leaves an event object there. *)
Lemma scripts_cycle_with_object (st : state) (o : Event.t)
    (reply : http_reply) (set : outcome) :
  lastAnnounced st = JS.Obj o ->
  let (st', fx) := ScriptsMeetup._checkForAndAnnounceNewMeetups env st reply set in
  sent fx = [] /\ exists o', lastAnnounced st' = JS.Obj o'.
Proof.
  intros Ho. unfold ScriptsMeetup._checkForAndAnnounceNewMeetups.
  destruct reply as [| |[|first others]]; try (split; [reflexivity|now exists o]).
  rewrite Ho.
  assert (E : filter (newer_than (JS.Obj o)) (first :: others) = [])
    by apply filter_false.
  rewrite E, (rearranges_nil _ _ Hre). simpl.
  destruct (redis st); [|split; [reflexivity|now exists o]].
  destruct set; simpl; split; try reflexivity; eauto.
Qed.

Lemma scripts_cycles_with_object (replies : list (http_reply * outcome)) :
  forall (st : state) (o : Event.t),
    lastAnnounced st = JS.Obj o ->
    sent (snd (ScriptsMeetup.cycles env st replies)) = [] /\
    Forall (fun s => exists o', lastAnnounced s = JS.Obj o')
      (fst (ScriptsMeetup.cycles env st replies)).
Proof.
  induction replies as [|[reply set] later IH]; intros st o Ho; simpl.
  - split; [reflexivity|constructor].
  - pose proof (scripts_cycle_with_object st o reply set Ho) as H.
    destruct (ScriptsMeetup._checkForAndAnnounceNewMeetups env st reply set)
      as [st' fx].
    destruct H as (Hs & o' & Ho').
    destruct (IH st' o' Ho') as [Hs' Hall].
    destruct (ScriptsMeetup.cycles env st' later) as [sts fxs]. simpl in *.
    split; [now rewrite sent_app, Hs, Hs'|].
    constructor; [now exists o'|exact Hall].
Qed.
End ObjectWatermark.

(** Only a new process leaves that state: [initialize] loads a text or 0,
    never an object. *)
Lemma scripts_initialize_loads_no_object (env : Process.env)
    (content : option string) (create get : outcome) (o : Event.t) :
  lastAnnounced
    (fst (ScriptsMeetup.initialize env
            (with_stored ScriptsMeetup.constructor content) create get))
  <> JS.Obj o.
Proof.
  unfold ScriptsMeetup.initialize.
  destruct (JS.truthy (Process.REDIS_URL env)), create, get; simpl;
    destruct (JS.truthy (NOTIFICATION_CHANNEL env)); simpl;
    try destruct (JS.truthy content); discriminate.
Qed.

(** C10.  In [scripts/meetup.js] a cycle on a non-empty fetch whose write
    works puts the last fetched event itself, not its time, into
    [lastAnnounced]; from then on, in every later cycle of the process, the
    test [ev.time > lastAnnounced] is false for every event and no message is
    sent. *)
Theorem event_object_watermark_silences_script {engine : JS.SortEngine}
    (env : Process.env) (st : state) (first : Event.t) (others : list Event.t)
    (replies : list (http_reply * outcome)) :
  JS.rearranges engine ->
  redis st <> None ->
  Forall valid_event (first :: others) ->
  let st1 :=
    fst (ScriptsMeetup._checkForAndAnnounceNewMeetups env st
           (Events (first :: others)) Works) in
  lastAnnounced st1 = JS.Obj (last_of first others) /\
  Forall (fun s => forall ev, newer_than (lastAnnounced s) ev = false)
    (st1 :: fst (ScriptsMeetup.cycles env st1 replies)) /\
  sent (snd (ScriptsMeetup.cycles env st1 replies)) = [].
Proof.
  intros Hre Hr Hv. cbv zeta.
  assert (H1 : lastAnnounced
                 (fst (ScriptsMeetup._checkForAndAnnounceNewMeetups env st
                         (Events (first :: others)) Works))
               = JS.Obj (last_of first others)).
  { unfold ScriptsMeetup._checkForAndAnnounceNewMeetups.
    set (announced := JS.Array_sort Event.t by_time _).
    assert (Ha : Forall valid_event announced).
    { eapply Permutation_Forall; [apply Hre|].
      apply Forall_forall. intros ev Hin. apply filter_In in Hin as [Hin _].
      rewrite Forall_forall in Hv. now apply Hv. }
    pose proof (Scripts_send_each_valid env announced Ha) as Hs.
    destruct (ScriptsMeetup.send_each env announced) as [fx thrown].
    simpl in Hs. subst thrown.
    destruct (redis st); [reflexivity|congruence]. }
  destruct (scripts_cycles_with_object env Hre replies _ _ H1) as [Hsent Hobj].
  split; [exact H1|]. split; [|exact Hsent].
  constructor.
  - intros ev. rewrite H1. apply newer_than_object.
  - eapply Forall_impl; [|exact Hobj].
    intros s [o Ho] ev. rewrite Ho. apply newer_than_object.
Qed.

Lemma event_object_watermark_silences_script_witness :
  let A := event "A" 1500 "upcoming" in
  let B := event "B" 2000 "upcoming" in
  let st1 :=
    fst (ScriptsMeetup._checkForAndAnnounceNewMeetups (engine := JS.V8_TimSort)
           sample_env (loaded 1000) (Events [A; B]) Works) in
  lastAnnounced st1 = JS.Obj B /\
  sent (snd (ScriptsMeetup.cycles (engine := JS.V8_TimSort) sample_env st1
               [(Events [A; B; event "C" 3000 "upcoming"], Works)])) = [].
Proof.
  pose proof (event_object_watermark_silences_script (engine := JS.V8_TimSort)
                sample_env (loaded 1000)
                (event "A" 1500 "upcoming") [event "B" 2000 "upcoming"]
                [(Events [event "A" 1500 "upcoming"; event "B" 2000 "upcoming";
                          event "C" 3000 "upcoming"], Works)]
                V8_TimSort_rearranges) as H.
  cbv zeta in H.
  destruct H as (H1 & _ & H3).
  - discriminate.
  - repeat constructor.
  - split; [exact H1|exact H3].
Defined.

(** * Further properties of the script with the command *)

Lemma fetched_sample_valid : Forall valid_event fetched_sample.
Proof. repeat constructor. Qed.

Lemma scheduled_cycle_announces_newer_witness :
  exists announced,
    sent (snd (Meetup.checkForAndAnnounceNewMeetups (engine := JS.V8_TimSort)
                 sample_env (connected 1000) (Events fetched_sample) Works))
    = map Meetup.rendered announced /\
    Permutation announced
      (filter (fun ev => 1000 <? Event.time ev) (filter is_upcoming fetched_sample)) /\
    (ascending (Meetup.listing (engine := JS.V8_TimSort) sample_env
                  (Events fetched_sample)) -> ascending announced).
Proof.
  apply (scheduled_cycle_announces_newer (engine := JS.V8_TimSort) sample_env
           (connected 1000) 1000 fetched_sample Works).
  - exact V8_TimSort_rearranges.
  - reflexivity.
  - exact fetched_sample_valid.
Defined.

Lemma scheduled_cycle_saves_max_of_ascending_witness :
  let st' := fst (Meetup.checkForAndAnnounceNewMeetups (engine := JS.V8_TimSort)
                    sample_env (connected 1000) (Events fetched_sample) Works) in
  lastAnnounced st' = JS.Num 2000 /\
  stored st' = Some "2000" /\
  persisted st' = JS.Num 2000.
Proof.
  apply (scheduled_cycle_saves_max_of_ascending (engine := JS.V8_TimSort) sample_env
           (connected 1000) (Events fetched_sample)
           (event "A" 1500 "upcoming") [event "B" 2000 "upcoming"]).
  - discriminate.
  - reflexivity.
  - repeat constructor.
  - apply ascendingb_spec. reflexivity.
Defined.

Lemma scheduled_cycle_without_news_witness :
  let (st', fx) :=
    Meetup.checkForAndAnnounceNewMeetups (engine := JS.V8_TimSort) sample_env
      (connected 2000) (Events fetched_sample) Works in
  st' = connected 2000 /\ sent fx = [] /\ existsb is_store_write fx = false.
Proof.
  apply (scheduled_cycle_without_news (engine := JS.V8_TimSort) sample_env
           (connected 2000) (Events fetched_sample) Works).
  reflexivity.
Defined.


Lemma watermark_never_goes_down_witness :
  let st := connected 1000 in
  let after :=
    fst (Meetup.cycles (engine := JS.V8_TimSort) sample_env st
           [(Events fetched_sample, Works); (NetworkError, Works);
            (Events fetched_sample, Fails)]) in
  never_decreases (persisted st) (map persisted after).
Proof.
  apply (proj2 (watermark_never_goes_down (engine := JS.V8_TimSort) sample_env
                  (connected 1000)
                  [(Events fetched_sample, Works); (NetworkError, Works);
                   (Events fetched_sample, Fails)])).
  left. reflexivity.
Defined.

Lemma only_sends_all_sent_to (to : destination) (fx : list effect) :
  Forall (fun e => exists m, e = Send to m) fx -> all_sent_to to fx.
Proof.
  unfold all_sent_to. apply Forall_impl. now intros e [m ->].
Qed.

Lemma only_sends_requests (to : destination) (fx : list effect) :
  Forall (fun e => exists m, e = Send to m) fx -> requests fx = [] /\ writes fx = [].
Proof.
  induction 1 as [|e fx [m ->] _ [IHr IHw]]; [now split|].
  unfold requests, writes in *. simpl. now rewrite IHr, IHw.
Qed.

Lemma all_sent_to_app (to : destination) (fx fx' : list effect) :
  all_sent_to to fx -> all_sent_to to fx' -> all_sent_to to (fx ++ fx').
Proof. intros H H'. apply Forall_app. now split. Qed.

(** What [announceEvents] adds to the sends of the loop: nothing, the write,
    or the write and the error handed to the robot. *)
Lemma announceEvents_effects (st : state) (events : list Event.t)
    (to : destination) (set : outcome) :
  exists tail,
    snd (fst (Meetup.announceEvents st events to set))
    = (fst (Meetup.send_each to events) ++ tail)%list /\
    snd (Meetup.announceEvents st events to set) = snd (Meetup.send_each to events) /\
    sent tail = [] /\ requests tail = [] /\ all_sent_to to tail /\
    (tail = [] \/
     exists first others,
       events = first :: others /\ redis st <> None /\
       snd (Meetup.send_each to events) = None /\
       writes tail
       = [(LAST_ANNOUNCED_KEY, JS.Number_toString (Event.time (last_of first others)))]).
Proof.
  unfold Meetup.announceEvents.
  assert (Hnil : forall (fx : list effect) (thrown : option JS.error),
            exists tail : list effect,
              fx = (fx ++ tail)%list /\ thrown = thrown /\
              sent tail = [] /\ requests tail = [] /\ all_sent_to to tail /\
              (tail = [] \/
               exists first others,
                 events = first :: others /\ redis st <> None /\
                 thrown = None /\
                 writes tail
                 = [(LAST_ANNOUNCED_KEY,
                     JS.Number_toString (Event.time (last_of first others)))])).
  { intros fx thrown. exists []. rewrite app_nil_r.
    split; [reflexivity|]. split; [reflexivity|]. split; [reflexivity|].
    split; [reflexivity|]. split; [constructor|now left]. }
  destruct (Meetup.send_each to events) as [fx [e|]]; simpl; [apply Hnil|].
  destruct (redis st) as [c|] eqn:Hr; [|apply Hnil].
  destruct events as [|first others]; [apply Hnil|].
  destruct set; simpl; eexists; (split; [reflexivity|]);
    (split; [reflexivity|]); (split; [reflexivity|]); (split; [reflexivity|]);
    (split; [repeat constructor|]);
    right; exists first, others; repeat split; congruence.
Qed.

Lemma requests_app (fx fx' : list effect) :
  requests (fx ++ fx') = (requests fx ++ requests fx')%list.
Proof. unfold requests. apply flat_map_app. Qed.

Lemma writes_app (fx fx' : list effect) :
  writes (fx ++ fx') = (writes fx ++ writes fx')%list.
Proof. unfold writes. apply flat_map_app. Qed.

Lemma unobserved_plain (thrown : option JS.error) (to : destination) :
  requests (Meetup.unobserved thrown) = [] /\
  writes (Meetup.unobserved thrown) = [] /\
  all_sent_to to (Meetup.unobserved thrown).
Proof. destruct thrown; repeat split; repeat constructor. Qed.

(** The command lists every upcoming event whatever the watermark: what it
    sends depends neither on the fields of the object nor on the key nor on
    the fate of the write, and all of it goes to the requester. *)
Theorem command_lists_whatever_the_watermark {engine : JS.SortEngine}
    (env : Process.env) (st st' : state) (reply : http_reply) (set set' : outcome) :
  sent (snd (Meetup.cmdShowUpcoming env st reply set))
  = sent (snd (Meetup.cmdShowUpcoming env st' reply set')) /\
  all_sent_to Requester (snd (Meetup.cmdShowUpcoming env st reply set)).
Proof.
  assert (H : forall s o,
            sent (snd (Meetup.cmdShowUpcoming env s reply o))
            = sent (fst (Meetup.send_each Requester (Meetup.listing env reply))) /\
            all_sent_to Requester (snd (Meetup.cmdShowUpcoming env s reply o))).
  { intros s o. unfold Meetup.cmdShowUpcoming, Meetup.listing.
    destruct reply as [| |events]; simpl; try (split; [reflexivity|repeat constructor]).
    set (listed := JS.Array_sort Event.t by_time (filter is_upcoming events)).
    destruct (announceEvents_effects s listed Requester o)
      as (tail & Hfx & Hth & Hsent & _ & Hto & _).
    destruct (Meetup.announceEvents s listed Requester o) as [[s1 fx1] thrown].
    simpl in *. subst fx1. split.
    - unfold sent in *. rewrite !flat_map_app, Hsent.
      destruct thrown; simpl; now rewrite ?app_nil_r.
    - constructor; [exact I|].
      apply all_sent_to_app; [apply all_sent_to_app|].
      + apply only_sends_all_sent_to, Meetup_send_each_only_sends.
      + exact Hto.
      + apply unobserved_plain. }
  split; [|apply H]. now rewrite (proj1 (H st set)), (proj1 (H st' set')).
Qed.

(** Where the announcements of the timer go: the script with the command
    sends every message to the room "#" followed by the channel,
    [scripts/meetup.js] to the room named by the channel as it is. *)
Theorem scheduled_messages_go_to_the_channel {engine : JS.SortEngine}
    (env : Process.env) (st : state) (reply : http_reply) (set : outcome) :
  all_sent_to (Room (Some ("#" ++ channel_text env)%string))
    (snd (Meetup.checkForAndAnnounceNewMeetups env st reply set)) /\
  all_sent_to (Room (NOTIFICATION_CHANNEL env))
    (snd (ScriptsMeetup._checkForAndAnnounceNewMeetups env st reply set)).
Proof.
  split.
  - unfold Meetup.checkForAndAnnounceNewMeetups.
    destruct reply as [| |events]; simpl; try (repeat constructor).
    destruct (filter _ _) as [|first others]; [repeat constructor|].
    set (to := Room _).
    destruct (announceEvents_effects st (first :: others) to set)
      as (tail & Hfx & _ & _ & _ & Hto & _).
    destruct (Meetup.announceEvents st (first :: others) to set) as [[s1 fx1] thrown].
    simpl in *. subst fx1.
    constructor; [exact I|]. constructor; [exact I|]. constructor; [exact I|].
    apply all_sent_to_app; [apply all_sent_to_app|].
    + apply only_sends_all_sent_to, (Meetup_send_each_only_sends to (first :: others)).
    + exact Hto.
    + apply unobserved_plain.
  - unfold ScriptsMeetup._checkForAndAnnounceNewMeetups.
    destruct reply as [| |[|first others]]; try (repeat constructor).
    set (announced := JS.Array_sort Event.t by_time _).
    assert (Hs : all_sent_to (Room (NOTIFICATION_CHANNEL env))
                   (fst (ScriptsMeetup.send_each env announced))).
    { clear. induction announced as [|ev rest IH]; simpl; [constructor|].
      destruct (ScriptsMeetup.message_of ev); [constructor|].
      destruct (ScriptsMeetup.send_each env rest). simpl in *.
      constructor; [reflexivity|exact IH]. }
    destruct (ScriptsMeetup.send_each env announced) as [fx [e|]]; simpl in Hs.
    + repeat (constructor; [exact I|]).
      apply all_sent_to_app; [exact Hs|repeat constructor].
    + destruct (redis st); [destruct set|];
        repeat (constructor; [exact I|]);
        (apply all_sent_to_app; [exact Hs|repeat constructor]).
Qed.

(** An event whose time is no valid date stops the batch: the events before
    it are sent, the exception leaves the loop, nothing after it is sent,
    and neither the field nor the key is written. *)
Theorem invalid_date_stops_batch (st : state) (before after : list Event.t)
    (bad : Event.t) (to : destination) (set : outcome) :
  Forall valid_event before ->
  ~ valid_event bad ->
  Meetup.announceEvents st (before ++ bad :: after) to set
  = (st, map (fun ev => Send to (Meetup.rendered ev)) before, Some JS.RangeError).
Proof.
  intros Hv Hbad. unfold Meetup.announceEvents.
  assert (E : Meetup.send_each to (before ++ bad :: after)
              = (map (fun ev => Send to (Meetup.rendered ev)) before,
                 Some JS.RangeError)).
  { induction Hv as [|ev rest Hev _ IH]; simpl.
    - unfold Meetup.message_of, Moment.when, Moment.Date_toISOString.
      unfold valid_event in Hbad.
      now destruct (Moment.valid_time (Event.time bad)).
    - now rewrite (Meetup_message_of_valid ev Hev), IH. }
  now rewrite E.
Qed.

Lemma invalid_date_stops_batch_witness :
  Meetup.announceEvents (connected 1000)
    ([event "A" 1500 "upcoming"]
       ++ event "never" 8640000000000001 "upcoming" :: [event "B" 2000 "upcoming"])
    Requester Works
  = (connected 1000,
     map (fun ev => Send Requester (Meetup.rendered ev)) [event "A" 1500 "upcoming"],
     Some JS.RangeError).
Proof.
  apply (invalid_date_stops_batch (connected 1000) [event "A" 1500 "upcoming"]
           [event "B" 2000 "upcoming"] (event "never" 8640000000000001 "upcoming")
           Requester Works).
  - repeat constructor.
  - discriminate.
Defined.

(** * Restarts and repeated fetches *)

Lemma newer_than_by_number (v : JS.value) (ev : Event.t) :
  newer_than v ev
  = match JS.ToNumber v with Some n => n <? Event.time ev | None => false end.
Proof. destruct v; reflexivity. Qed.

Lemma fold_max_bounds (l : list Z) (a : Z) :
  a <= fold_left Z.max l a /\ Forall (fun x => x <= fold_left Z.max l a) l.
Proof.
  revert a. induction l as [|x l IH]; intros a; simpl.
  - split; [lia|constructor].
  - destruct (IH (Z.max a x)) as [Ha Hl]. split; [lia|].
    constructor; [lia|exact Hl].
Qed.

Lemma max_time_upper (first : Event.t) (others : list Event.t) (ev : Event.t) :
  In ev (first :: others) -> Event.time ev <= max_time first others.
Proof.
  unfold max_time.
  destruct (fold_max_bounds (map Event.time others) (Event.time first)) as [Hf Ho].
  intros [<- | Hin]; [exact Hf|].
  rewrite Forall_forall in Ho. apply Ho. now apply in_map.
Qed.

Lemma filter_none {A : Type} (f : A -> bool) (l : list A) :
  (forall x, In x l -> f x = false) -> filter f l = [].
Proof.
  induction l as [|x l IH]; intros H; simpl; [reflexivity|].
  rewrite (H x (or_introl eq_refl)). apply IH. intros y Hy. apply H. now right.
Qed.

(** A cycle on a reply whose filtered part is empty, as a function. *)
Lemma cycle_on_nothing_new {engine : JS.SortEngine} (env : Process.env)
    (st : state) (reply : http_reply) (set : outcome) :
  Meetup.unannounced env st reply = [] ->
  fst (Meetup.checkForAndAnnounceNewMeetups env st reply set) = st /\
  sent (snd (Meetup.checkForAndAnnounceNewMeetups env st reply set)) = [].
Proof.
  unfold Meetup.checkForAndAnnounceNewMeetups, Meetup.unannounced, Meetup.listing.
  destruct reply as [| |events]; simpl; intros Hf; try (now split).
  rewrite Hf. now split.
Qed.

(** With the watermark at the largest time of an ascending listing, nothing
    of the listing is above it. *)
Lemma nothing_above_last {engine : JS.SortEngine} (env : Process.env)
    (st : state) (reply : http_reply) (first : Event.t) (others : list Event.t) :
  Meetup.listing env reply = first :: others ->
  ascending (Meetup.listing env reply) ->
  lastAnnounced st = JS.Num (Event.time (last_of first others)) ->
  Meetup.unannounced env st reply = [].
Proof.
  intros Hl Hs Hla. unfold Meetup.unannounced. rewrite Hla, Hl.
  apply filter_none. intros ev Hin. rewrite newer_than_number.
  rewrite Hl in Hs. rewrite (last_is_max first others Hs).
  apply Z.ltb_ge. now apply max_time_upper.
Qed.

(** The last element of the filtered part of an ascending array is the last
    element of the array. *)
Lemma last_of_filtered (T : Z) (events : list Event.t)
    (first : Event.t) (others : list Event.t) :
  ascending events ->
  filter (fun ev => T <? Event.time ev) events = first :: others ->
  forall ev, In ev events -> Event.time ev <= Event.time (last_of first others).
Proof.
  intros Hs Hf ev Hin.
  assert (Ha : ascending (first :: others))
    by (rewrite <- Hf; now apply ascending_filter).
  rewrite (last_is_max first others Ha).
  destruct (Z.ltb_spec T (Event.time ev)) as [Hnew|Hold].
  - apply max_time_upper. rewrite <- Hf. apply filter_In. split; [exact Hin|].
    now apply Z.ltb_lt.
  - assert (Hfirst : T < Event.time first).
    { assert (Hin' : In first (filter (fun ev => T <? Event.time ev) events))
        by (rewrite Hf; now left).
      apply filter_In in Hin' as [_ H]. now apply Z.ltb_lt. }
    pose proof (max_time_upper first others first (or_introl eq_refl)). lia.
Qed.

(** No event twice: after a cycle on an ascending listing, with a connected
    client, a further cycle on the same fetch sends nothing and changes
    nothing, whether the write of the first worked or failed. *)
Theorem repeated_fetch_is_not_announced_again {engine : JS.SortEngine}
    (env : Process.env) (st : state) (reply : http_reply) (set set' : outcome) :
  redis st <> None ->
  Forall valid_event (Meetup.listing env reply) ->
  ascending (Meetup.listing env reply) ->
  let st1 := fst (Meetup.checkForAndAnnounceNewMeetups env st reply set) in
  let again := Meetup.checkForAndAnnounceNewMeetups env st1 reply set' in
  fst again = st1 /\ sent (snd again) = [].
Proof.
  intros Hr Hv Hs. cbv zeta. apply cycle_on_nothing_new.
  rewrite cycle_state.
  destruct (Meetup.unannounced env st reply) as [|first others] eqn:E.
  - unfold Meetup.announceEvents. simpl. now destruct (redis st).
  - assert (Hva : Forall valid_event (first :: others)).
    { rewrite <- E. unfold Meetup.unannounced. apply Forall_forall.
      intros ev Hin. apply filter_In in Hin as [Hin _].
      rewrite Forall_forall in Hv. now apply Hv. }
    rewrite (announceEvents_state _ _ _ _ Hva).
    destruct (redis st) as [c|]; [|congruence].
    destruct (newer_than_reads (lastAnnounced st) first) as (n & Hn & Hlt).
    { assert (Hin : In first (Meetup.unannounced env st reply))
        by (rewrite E; now left).
      now apply filter_In in Hin as [_ H]. }
    assert (Hf : filter (fun ev => n <? Event.time ev) (Meetup.listing env reply)
                 = first :: others).
    { rewrite <- E. unfold Meetup.unannounced. apply filter_ext.
      intros ev. now rewrite newer_than_by_number, Hn. }
    assert (Hall := last_of_filtered n _ first others Hs Hf).
    assert (Hnone : forall s,
              lastAnnounced s = JS.Num (Event.time (last_of first others)) ->
              Meetup.unannounced env s reply = []).
    { intros s Hla. unfold Meetup.unannounced. rewrite Hla.
      apply filter_none. intros ev Hin. rewrite newer_than_number.
      apply Z.ltb_ge. now apply Hall. }
    destruct set; now apply Hnone.
Qed.

Lemma repeated_fetch_is_not_announced_again_witness :
  let st1 := fst (Meetup.checkForAndAnnounceNewMeetups (engine := JS.V8_TimSort)
                    sample_env (connected 1000) (Events fetched_sample) Fails) in
  let again := Meetup.checkForAndAnnounceNewMeetups (engine := JS.V8_TimSort)
                 sample_env st1 (Events fetched_sample) Works in
  fst again = st1 /\ sent (snd again) = [].
Proof.
  apply (repeated_fetch_is_not_announced_again (engine := JS.V8_TimSort)
           sample_env (connected 1000) (Events fetched_sample) Fails Works).
  - discriminate.
  - repeat constructor.
  - apply ascendingb_spec. reflexivity.
Defined.

(** After the command has listed an ascending listing, with a connected
    client, the timer does not announce that fetch: the next scheduled cycle
    on it sends nothing. *)
Theorem listed_events_are_not_announced_by_the_timer {engine : JS.SortEngine}
    (env : Process.env) (st : state) (reply : http_reply) (set set' : outcome) :
  redis st <> None ->
  Forall valid_event (Meetup.listing env reply) ->
  ascending (Meetup.listing env reply) ->
  let st1 := fst (Meetup.cmdShowUpcoming env st reply set) in
  let next := Meetup.checkForAndAnnounceNewMeetups env st1 reply set' in
  fst next = st1 /\ sent (snd next) = [].
Proof.
  intros Hr Hv Hs. cbv zeta. apply cycle_on_nothing_new.
  rewrite cmdShowUpcoming_state, (announceEvents_state _ _ _ _ Hv).
  destruct (redis st) as [c|]; [|congruence].
  destruct (Meetup.listing env reply) as [|first others] eqn:E.
  - unfold Meetup.unannounced. now rewrite E.
  - destruct set; apply (nothing_above_last env _ reply first others);
      try assumption; try reflexivity; now rewrite E.
Qed.

Lemma listed_events_are_not_announced_by_the_timer_witness :
  let st1 := fst (Meetup.cmdShowUpcoming (engine := JS.V8_TimSort) sample_env
                    (connected 0) (Events fetched_sample) Works) in
  let next := Meetup.checkForAndAnnounceNewMeetups (engine := JS.V8_TimSort)
                sample_env st1 (Events fetched_sample) Works in
  fst next = st1 /\ sent (snd next) = [].
Proof.
  apply (listed_events_are_not_announced_by_the_timer (engine := JS.V8_TimSort)
           sample_env (connected 0) (Events fetched_sample) Works Works).
  - discriminate.
  - repeat constructor.
  - apply ascendingb_spec. reflexivity.
Defined.

Lemma exports_loads (env : Process.env) (content : option string) :
  JS.truthy (Process.REDIS_URL env) = true ->
  lastAnnounced (fst (exports env content Works Works))
  = JS.parseInt (JS.or_else content "0").
Proof.
  intros H. unfold exports, Meetup.initialize. rewrite H. simpl.
  now destruct (JS.truthy (NOTIFICATION_CHANNEL env)).
Qed.

(** What a cycle saves is what a new process loads: after a cycle that
    announced a batch, [module.exports] run on the store as the cycle left it
    starts from the time the cycle saved if the write worked, and from what
    the key held before if it failed, while the running process goes on from
    the saved time in both cases. *)
Theorem restart_resumes_from_the_key {engine : JS.SortEngine} (env : Process.env)
    (st : state) (reply : http_reply) (set : outcome)
    (first : Event.t) (others : list Event.t) :
  JS.truthy (Process.REDIS_URL env) = true ->
  redis st <> None ->
  Meetup.unannounced env st reply = first :: others ->
  Forall valid_event (first :: others) ->
  let st1 := fst (Meetup.checkForAndAnnounceNewMeetups env st reply set) in
  let fresh := fst (exports env (stored st1) Works Works) in
  lastAnnounced st1 = JS.Num (Event.time (last_of first others)) /\
  lastAnnounced fresh
  = match set with
    | Works => JS.Num (Event.time (last_of first others))
    | Fails => persisted st
    end.
Proof.
  intros Hurl Hr Hf Hv. cbv zeta.
  rewrite (exports_loads env _ Hurl).
  rewrite cycle_state, Hf, (announceEvents_state _ _ _ _ Hv).
  destruct (redis st) as [c|]; [|congruence].
  destruct set; cbv zeta; (split; [reflexivity|]).
  - reflexivity.
  - apply (persisted_after_write st).
Qed.

Lemma restart_resumes_from_the_key_witness :
  let st1 := fst (Meetup.checkForAndAnnounceNewMeetups (engine := JS.V8_TimSort)
                    sample_env (connected 1000) (Events fetched_sample) Works) in
  let fresh := fst (exports sample_env (stored st1) Works Works) in
  lastAnnounced st1 = JS.Num 2000 /\ lastAnnounced fresh = JS.Num 2000.
Proof.
  apply (restart_resumes_from_the_key (engine := JS.V8_TimSort) sample_env
           (connected 1000) (Events fetched_sample) Works
           (event "A" 1500 "upcoming") [event "B" 2000 "upcoming"]).
  - reflexivity.
  - discriminate.
  - reflexivity.
  - repeat constructor.
Defined.

(** * Requests, start-up and runs *)

Lemma requests_send_each (to : destination) (events : list Event.t) :
  requests (fst (Meetup.send_each to events)) = [].
Proof. apply (only_sends_requests to), Meetup_send_each_only_sends. Qed.

Lemma scripts_send_each_plain (env : Process.env) (events : list Event.t) :
  requests (fst (ScriptsMeetup.send_each env events)) = [] /\
  writes (fst (ScriptsMeetup.send_each env events)) = [].
Proof.
  induction events as [|ev rest [IHr IHw]]; simpl; [now split|].
  destruct (ScriptsMeetup.message_of ev); [now split|].
  destruct (ScriptsMeetup.send_each env rest). simpl in *. now split.
Qed.

(** One request per invocation: the command and the scheduled cycle of
    either script ask the events API exactly once, at the address of the
    configured group, whatever the reply and whatever follows. *)
Theorem one_request_per_invocation {engine : JS.SortEngine} (env : Process.env)
    (st : state) (reply : http_reply) (set : outcome) :
  requests (snd (Meetup.cmdShowUpcoming env st reply set)) = [events_url env] /\
  requests (snd (Meetup.checkForAndAnnounceNewMeetups env st reply set))
  = [events_url env] /\
  requests (snd (ScriptsMeetup._checkForAndAnnounceNewMeetups env st reply set))
  = [events_url env].
Proof.
  split; [|split].
  - unfold Meetup.cmdShowUpcoming.
    destruct reply as [| |events]; simpl; try reflexivity.
    set (listed := JS.Array_sort Event.t by_time _).
    destruct (announceEvents_effects st listed Requester set)
      as (tail & Hfx & _ & _ & Hreq & _).
    destruct (Meetup.announceEvents st listed Requester set) as [[s1 fx1] thrown].
    simpl in Hfx. subst fx1. cbn [snd].
    change (requests (HttpGet (events_url env)
                        :: (fst (Meetup.send_each Requester listed) ++ tail)
                        ++ Meetup.unobserved thrown))
      with (events_url env
              :: requests ((fst (Meetup.send_each Requester listed) ++ tail)
                           ++ Meetup.unobserved thrown)).
    rewrite !requests_app, requests_send_each, Hreq.
    now rewrite (proj1 (unobserved_plain thrown Requester)).
  - unfold Meetup.checkForAndAnnounceNewMeetups.
    destruct reply as [| |events]; simpl; try reflexivity.
    destruct (filter _ _) as [|first others]; [reflexivity|].
    set (to := Room _).
    destruct (announceEvents_effects st (first :: others) to set)
      as (tail & Hfx & _ & _ & Hreq & _).
    destruct (Meetup.announceEvents st (first :: others) to set) as [[s1 fx1] thrown].
    cbn [fst snd] in Hfx. subst fx1. cbn [snd].
    match goal with
    | |- requests (HttpGet ?u :: ?a :: ?b :: ?rest) = _ =>
        change (requests (HttpGet u :: a :: b :: rest)) with (u :: requests rest)
    end.
    rewrite !requests_app, (requests_send_each to (first :: others)), Hreq.
    now rewrite (proj1 (unobserved_plain thrown to)).
  - unfold ScriptsMeetup._checkForAndAnnounceNewMeetups.
    destruct reply as [| |[|first others]]; try reflexivity.
    set (announced := JS.Array_sort Event.t by_time _).
    pose proof (proj1 (scripts_send_each_plain env announced)) as Hs.
    destruct (ScriptsMeetup.send_each env announced) as [fx [e|]]; simpl in Hs.
    + cbn [snd].
      match goal with
      | |- requests (HttpGet ?u :: ?a :: ?rest) = _ =>
          change (requests (HttpGet u :: a :: rest)) with (u :: requests rest)
      end.
      now rewrite requests_app, Hs.
    + destruct (redis st); [destruct set|]; cbn [snd];
        match goal with
        | |- requests (HttpGet ?u :: ?a :: ?rest) = _ =>
            change (requests (HttpGet u :: a :: rest)) with (u :: requests rest)
        end;
        now rewrite requests_app, Hs.
Qed.

Lemma of_option_plain (n : option Z) : plain_number (JS.of_option n) = true.
Proof. now destruct n. Qed.

Lemma parseInt_plain (s : string) : plain_number (JS.parseInt s) = true.
Proof.
  unfold JS.parseInt.
  repeat match goal with
         | |- context [match ?x with _ => _ end] => destruct x
         end; apply of_option_plain.
Qed.

(** What one invocation may do to the object: nothing, or put the time of an
    event into [lastAnnounced], with the decimal text of that time under the
    key if the write worked and the key as it was otherwise. *)
Lemma announceEvents_step (st : state) (events : list Event.t)
    (to : destination) (set : outcome) :
  let st' := fst (fst (Meetup.announceEvents st events to set)) in
  st' = st \/
  exists t,
    st' = with_lastAnnounced
            (match set with
             | Works => with_stored st (Some (JS.Number_toString t))
             | Fails => st
             end) (JS.Num t).
Proof.
  cbv zeta. unfold Meetup.announceEvents.
  destruct (Meetup.send_each to events) as [fx [e|]]; [now left|].
  destruct (redis st); [|now left].
  destruct events as [|first others]; [now left|].
  right. exists (Event.time (last_of first others)). now destruct set.
Qed.

Lemma handle_step {engine : JS.SortEngine} (env : Process.env) (st : state)
    (what : invocation) (reply : http_reply) (set : outcome) :
  let st' := fst (handle env st what reply set) in
  st' = st \/
  exists t,
    st' = with_lastAnnounced
            (match set with
             | Works => with_stored st (Some (JS.Number_toString t))
             | Fails => st
             end) (JS.Num t).
Proof.
  cbv zeta. destruct what; simpl.
  - unfold Meetup.tick. destruct (timer st); [|now left].
    rewrite cycle_state. apply announceEvents_step.
  - rewrite cmdShowUpcoming_state. apply announceEvents_step.
Qed.

(** Over any run of timer firings and commands after [module.exports], in
    the script with the command, [lastAnnounced] is always a number, [NaN]
    or [undefined], never a text or an object, and neither the client nor
    the timer changes. *)
Theorem lastAnnounced_stays_a_number {engine : JS.SortEngine} (env : Process.env)
    (content : option string) (create get : outcome)
    (todo : list (invocation * http_reply * outcome)) :
  let st0 := fst (exports env content create get) in
  Forall (fun s => plain_number (lastAnnounced s) = true /\
                   redis s = redis st0 /\ timer s = timer st0)
    (st0 :: run env st0 todo).
Proof.
  cbv zeta.
  assert (H0 : plain_number (lastAnnounced (fst (exports env content create get)))
               = true).
  { unfold exports, Meetup.initialize.
    destruct (JS.truthy (Process.REDIS_URL env)), create, get; simpl;
      destruct (JS.truthy (NOTIFICATION_CHANNEL env)); simpl;
      try reflexivity; apply parseInt_plain. }
  set (st0 := fst (exports env content create get)) in *.
  assert (G : forall st,
            plain_number (lastAnnounced st) = true ->
            Forall (fun s => plain_number (lastAnnounced s) = true /\
                             redis s = redis st /\ timer s = timer st)
              (run env st todo)).
  { induction todo as [|[[what reply] set] later IH]; intros st Hp; simpl.
    - constructor.
    - pose proof (handle_step env st what reply set) as Hstep. cbv zeta in Hstep.
      set (st' := fst (handle env st what reply set)) in *.
      assert (Hst' : plain_number (lastAnnounced st') = true /\
                     redis st' = redis st /\ timer st' = timer st).
      { destruct Hstep as [-> | [t ->]]; [now repeat split|].
        now destruct set. }
      constructor; [exact Hst'|].
      destruct Hst' as (Hp' & Hr' & Ht').
      eapply Forall_impl; [|apply (IH st' Hp')].
      intros s (Hs & Hr & Ht). repeat split; congruence. }
  constructor; [now repeat split|]. now apply G.
Qed.

(** While every write works, the field follows the key: from a start with a
    working store, after any run of timer firings and commands,
    [lastAnnounced] is what a load of the key would give. *)
Theorem field_follows_key_while_writes_work {engine : JS.SortEngine}
    (env : Process.env) (content : option string)
    (todo : list (invocation * http_reply * outcome)) :
  JS.truthy (Process.REDIS_URL env) = true ->
  Forall (fun i => snd i = Works) todo ->
  let st0 := fst (exports env content Works Works) in
  Forall (fun s => lastAnnounced s = persisted s) (st0 :: run env st0 todo).
Proof.
  intros Hurl Hw. cbv zeta.
  assert (H0 : lastAnnounced (fst (exports env content Works Works))
               = persisted (fst (exports env content Works Works))).
  { apply (initialize_loads_persisted env content Hurl). }
  set (st0 := fst (exports env content Works Works)) in *.
  constructor; [exact H0|].
  clearbody st0. revert st0 H0.
  induction Hw as [|[[what reply] set] later Hset _ IH]; intros st Hst; simpl.
  - constructor.
  - simpl in Hset. subst set.
    pose proof (handle_step env st what reply Works) as Hstep. cbv zeta in Hstep.
    set (st' := fst (handle env st what reply Works)) in *.
    assert (Hst' : lastAnnounced st' = persisted st').
    { destruct Hstep as [-> | [t ->]]; [exact Hst|].
      symmetry. apply (persisted_after_write st). }
    constructor; [exact Hst'|]. now apply IH.
Qed.

Lemma field_follows_key_while_writes_work_witness :
  let st0 := fst (exports sample_env (Some "1000") Works Works) in
  Forall (fun s => lastAnnounced s = persisted s)
    (st0 :: run (engine := JS.V8_TimSort) sample_env st0
              [(Asks, Events fetched_sample, Works); (Fires, NetworkError, Works);
               (Fires, Events fetched_sample, Works)]).
Proof.
  apply (field_follows_key_while_writes_work (engine := JS.V8_TimSort) sample_env
           (Some "1000")
           [(Asks, Events fetched_sample, Works); (Fires, NetworkError, Works);
            (Fires, Events fetched_sample, Works)]).
  - reflexivity.
  - repeat constructor.
Defined.



(** The timer is armed by the channel alone: [module.exports] of either
    script calls [setInterval] exactly when the channel variable is set and
    not empty, whatever becomes of the store, with the configured delay. *)
Theorem timer_follows_the_channel (env : Process.env) (content : option string)
    (create get : outcome) :
  let armed :=
    if JS.truthy (Process.HUBOT_MEETUP_NOTIFICATION_CHANNEL env)
    then Some (MEETUP_CHECK_INTERVAL env) else None in
  timer (fst (exports env content create get)) = armed /\
  timer (fst (scripts_exports env content create get)) = armed.
Proof.
  assert (Hc : JS.truthy (NOTIFICATION_CHANNEL env)
               = JS.truthy (Process.HUBOT_MEETUP_NOTIFICATION_CHANNEL env)).
  { unfold NOTIFICATION_CHANNEL.
    now destruct (JS.truthy (Process.HUBOT_MEETUP_NOTIFICATION_CHANNEL env)) eqn:E. }
  cbv zeta. rewrite <- Hc.
  unfold exports, scripts_exports, Meetup.initialize, ScriptsMeetup.initialize.
  split; destruct (JS.truthy (Process.REDIS_URL env)), create, get; simpl;
    try destruct (JS.truthy content); simpl;
    now destruct (JS.truthy (NOTIFICATION_CHANNEL env)).
Qed.



(** * Further properties of [scripts/meetup.js] *)

Lemma StringToNumber_toString (z : Z) :
  JS.StringToNumber (JS.Number_toString z) = Some z.
Proof.
  unfold JS.Number_toString.
  pose proof (DecimalZ.of_to z) as Hz.
  pose proof (to_int_digits z) as Hn.
  destruct (Z.to_int z) as [u|u]; simpl in Hz.
  - unfold NilEmpty.string_of_int.
    assert (Hd : JS.signed_digits (NilEmpty.string_of_uint u) = Some (Z.of_uint u)).
    { unfold JS.signed_digits. rewrite digits_prefix_of_uint.
      destruct u; congruence. }
    unfold JS.StringToNumber.
    destruct u; try congruence; simpl NilEmpty.string_of_uint in *;
      simpl JS.skip_white; cbv iota; rewrite Hd; congruence.
  - unfold NilEmpty.string_of_int, JS.StringToNumber.
    change (JS.skip_white (String "-" (NilEmpty.string_of_uint u)))
      with (String "-" (NilEmpty.string_of_uint u)).
    cbv iota. unfold JS.signed_digits. rewrite digits_prefix_of_uint.
    subst z. destruct u; try reflexivity. congruence.
Qed.

Lemma truthy_toString (z : Z) : JS.truthy (Some (JS.Number_toString z)) = true.
Proof.
  unfold JS.Number_toString. pose proof (to_int_digits z) as Hn.
  destruct (Z.to_int z) as [u|u]; [|reflexivity].
  destruct u; try reflexivity. congruence.
Qed.

Lemma scripts_send_each_sends (env : Process.env) (events : list Event.t) :
  Forall valid_event events ->
  ScriptsMeetup.send_each env events
  = (map (fun ev => Send (Room (NOTIFICATION_CHANNEL env)) (ScriptsMeetup.rendered ev))
       events, None).
Proof.
  induction 1 as [|ev rest Hev _ IH]; simpl.
  - reflexivity.
  - now rewrite (Scripts_message_of_valid env ev Hev), IH.
Qed.

Lemma rearranged_valid {engine : JS.SortEngine} (f : Event.t -> bool)
    (events : list Event.t) :
  JS.rearranges engine ->
  Forall valid_event events ->
  Forall valid_event (JS.Array_sort Event.t by_time (filter f events)).
Proof.
  intros Hre Hv. eapply Permutation_Forall; [apply Hre|].
  apply Forall_forall. intros ev Hin. apply filter_In in Hin as [Hin _].
  rewrite Forall_forall in Hv. now apply Hv.
Qed.

(** [scripts/meetup.js] keeps the text it loads and compares with it as a
    number: started on a key holding the decimal text of [T], its first
    cycle announces, once each, the fetched events whose time is above [T],
    whatever their status. *)
Theorem scripts_first_cycle_reads_the_text {engine : JS.SortEngine}
    (env : Process.env) (T : Z) (events : list Event.t) (set : outcome) :
  JS.rearranges engine ->
  JS.truthy (Process.REDIS_URL env) = true ->
  Forall valid_event events ->
  let st := fst (scripts_exports env (Some (JS.Number_toString T)) Works Works) in
  lastAnnounced st = JS.Str (JS.Number_toString T) /\
  exists announced,
    sent (snd (ScriptsMeetup._checkForAndAnnounceNewMeetups env st (Events events) set))
    = map ScriptsMeetup.rendered announced /\
    Permutation announced (filter (fun ev => T <? Event.time ev) events).
Proof.
  intros Hre Hurl Hv. cbv zeta.
  assert (Hst : fst (scripts_exports env (Some (JS.Number_toString T)) Works Works)
                = mk_state (Some Client) (JS.Str (JS.Number_toString T))
                    (Some (JS.Number_toString T))
                    (if JS.truthy (NOTIFICATION_CHANNEL env)
                     then Some (MEETUP_CHECK_INTERVAL env) else None)).
  { unfold scripts_exports, ScriptsMeetup.initialize. rewrite Hurl.
    cbn -[JS.truthy JS.or_else JS.Number_toString NOTIFICATION_CHANNEL
          MEETUP_CHECK_INTERVAL].
    rewrite truthy_toString, or_else_toString.
    now destruct (JS.truthy (NOTIFICATION_CHANNEL env)). }
  rewrite Hst. set (st := mk_state _ _ _ _).
  split; [reflexivity|].
  assert (Hnew : forall ev,
            newer_than (lastAnnounced st) ev = (T <? Event.time ev)).
  { intros ev. rewrite newer_than_by_number.
    change (lastAnnounced st) with (JS.Str (JS.Number_toString T)).
    unfold JS.ToNumber, JS.ToPrimitive.
    now rewrite StringToNumber_toString. }
  set (announced := JS.Array_sort Event.t by_time
                      (filter (newer_than (lastAnnounced st)) events)).
  assert (Hp : Permutation announced (filter (fun ev => T <? Event.time ev) events)).
  { unfold announced. rewrite (filter_ext _ _ Hnew). apply Permutation_sym, Hre. }
  assert (Ha : Forall valid_event announced) by now apply rearranged_valid.
  exists announced. split; [|exact Hp].
  unfold ScriptsMeetup._checkForAndAnnounceNewMeetups.
  destruct events as [|first others].
  - assert (E : announced = []).
    { apply Permutation_nil. apply Permutation_sym. exact Hp. }
    now rewrite E.
  - fold announced. rewrite (scripts_send_each_sends env announced Ha).
    simpl redis. cbv iota.
    destruct set; cbn [snd]; unfold sent; cbn [flat_map app];
      rewrite flat_map_app; cbn [flat_map app]; rewrite app_nil_r;
      apply (sent_sends (Room (NOTIFICATION_CHANNEL env)) ScriptsMeetup.rendered).
Qed.

Lemma scripts_first_cycle_reads_the_text_witness :
  let st := fst (scripts_exports sample_env (Some (JS.Number_toString 1000))
                   Works Works) in
  lastAnnounced st = JS.Str (JS.Number_toString 1000) /\
  exists announced,
    sent (snd (ScriptsMeetup._checkForAndAnnounceNewMeetups (engine := JS.V8_TimSort)
                 sample_env st (Events fetched_sample) Works))
    = map ScriptsMeetup.rendered announced /\
    Permutation announced (filter (fun ev => 1000 <? Event.time ev) fetched_sample).
Proof.
  apply (scripts_first_cycle_reads_the_text (engine := JS.V8_TimSort) sample_env
           1000 fetched_sample Works).
  - exact V8_TimSort_rearranges.
  - reflexivity.
  - exact fetched_sample_valid.
Defined.

(** In [scripts/meetup.js] every cycle on a non-empty fetch whose write works
    puts the time of the last fetched event under the key, whatever the
    watermark was and whether or not anything was announced. *)
Theorem scripts_cycle_saves_last_fetched {engine : JS.SortEngine}
    (env : Process.env) (st : state) (first : Event.t) (others : list Event.t) :
  JS.rearranges engine ->
  redis st <> None ->
  Forall valid_event (first :: others) ->
  let (st', fx) :=
    ScriptsMeetup._checkForAndAnnounceNewMeetups env st
      (Events (first :: others)) Works in
  stored st' = Some (JS.Number_toString (Event.time (last_of first others))) /\
  persisted st' = JS.Num (Event.time (last_of first others)) /\
  writes fx
  = [(LAST_ANNOUNCED_KEY, JS.Number_toString (Event.time (last_of first others)))].
Proof.
  intros Hre Hr Hv. unfold ScriptsMeetup._checkForAndAnnounceNewMeetups.
  set (announced := JS.Array_sort Event.t by_time _).
  assert (Ha : Forall valid_event announced) by now apply rearranged_valid.
  pose proof (scripts_send_each_plain env announced) as [_ Hw].
  rewrite (scripts_send_each_sends env announced Ha) in *. simpl in Hw.
  destruct (redis st) as [c|]; [|congruence].
  split; [reflexivity|]. split; [apply (persisted_after_write st)|].
  match goal with
  | |- writes (?a :: ?b :: ?rest) = _ =>
      change (writes (a :: b :: rest)) with (writes rest)
  end.
  now rewrite writes_app, Hw.
Qed.

Lemma scripts_cycle_saves_last_fetched_witness :
  let (st', fx) :=
    ScriptsMeetup._checkForAndAnnounceNewMeetups (engine := JS.V8_TimSort)
      sample_env (loaded 5000)
      (Events (event "A" 1500 "upcoming" :: [event "B" 2000 "upcoming"])) Works in
  stored st' = Some (JS.Number_toString 2000) /\
  persisted st' = JS.Num 2000 /\
  writes fx = [(LAST_ANNOUNCED_KEY, JS.Number_toString 2000)].
Proof.
  apply (scripts_cycle_saves_last_fetched (engine := JS.V8_TimSort) sample_env
           (loaded 5000) (event "A" 1500 "upcoming") [event "B" 2000 "upcoming"]).
  - exact V8_TimSort_rearranges.
  - discriminate.
  - repeat constructor.
Defined.

(** The save of [scripts/meetup.js] where it cannot work.  Without a client
    the cycle ends in a [TypeError] on [this.redis.set] after its sends;
    with a client and a failing write the callback ends in a [TypeError] on
    [this.hubor].  In both cases the object is left as it was, so the next
    cycle starts from the same watermark. *)
Theorem scripts_save_errors {engine : JS.SortEngine} (env : Process.env)
    (st : state) (first : Event.t) (others : list Event.t) (set : outcome) :
  JS.rearranges engine ->
  Forall valid_event (first :: others) ->
  redis st = None \/ set = Fails ->
  let (st', fx) :=
    ScriptsMeetup._checkForAndAnnounceNewMeetups env st
      (Events (first :: others)) set in
  st' = st /\
  In (Uncaught JS.TypeError) fx /\
  writes fx
  = match redis st with
    | None => []
    | Some _ =>
        [(LAST_ANNOUNCED_KEY, JS.Number_toString (Event.time (last_of first others)))]
    end.
Proof.
  intros Hre Hv Hcase. unfold ScriptsMeetup._checkForAndAnnounceNewMeetups.
  set (announced := JS.Array_sort Event.t by_time _).
  assert (Ha : Forall valid_event announced) by now apply rearranged_valid.
  pose proof (scripts_send_each_plain env announced) as [_ Hw].
  rewrite (scripts_send_each_sends env announced Ha) in *. simpl in Hw.
  assert (Hin : forall (pre : list effect) (a b : effect) (tail : list effect),
            In (Uncaught JS.TypeError) tail ->
            In (Uncaught JS.TypeError) (a :: b :: pre ++ tail)).
  { intros pre a b tail H. right. right. apply in_or_app. now right. }
  destruct (redis st) as [c|].
  - destruct Hcase as [Hcase| ->]; [discriminate|].
    split; [reflexivity|]. split; [apply Hin; right; now left|].
    match goal with
    | |- writes (?a :: ?b :: ?rest) = _ =>
        change (writes (a :: b :: rest)) with (writes rest)
    end.
    now rewrite writes_app, Hw.
  - split; [reflexivity|]. split; [apply Hin; now left|].
    match goal with
    | |- writes (?a :: ?b :: ?rest) = _ =>
        change (writes (a :: b :: rest)) with (writes rest)
    end.
    now rewrite writes_app, Hw.
Qed.

Lemma scripts_save_errors_witness :
  let (st', fx) :=
    ScriptsMeetup._checkForAndAnnounceNewMeetups (engine := JS.V8_TimSort)
      sample_env (loaded 1000)
      (Events (event "A" 1500 "upcoming" :: [event "B" 2000 "upcoming"])) Fails in
  st' = loaded 1000 /\
  In (Uncaught JS.TypeError) fx /\
  writes fx = [(LAST_ANNOUNCED_KEY, JS.Number_toString 2000)].
Proof.
  apply (scripts_save_errors (engine := JS.V8_TimSort) sample_env (loaded 1000)
           (event "A" 1500 "upcoming") [event "B" 2000 "upcoming"] Fails).
  - exact V8_TimSort_rearranges.
  - repeat constructor.
  - right. reflexivity.
Defined.

(** * The pattern and the time of day, in general *)

Lemma canonicalize_idempotent (c : ascii) :
  RegExp.canonicalize (RegExp.canonicalize c) = RegExp.canonicalize c.
Proof. destruct c as [[] [] [] [] [] [] [] []]; reflexivity. Qed.

Lemma matches_here_folded (p s : string) :
  RegExp.matches_here true p (RegExp.fold_case s) = RegExp.matches_here true p s.
Proof.
  revert s. induction p as [|a p IH]; intros s; [reflexivity|].
  destruct s as [|c s]; [reflexivity|].
  cbn [RegExp.fold_case RegExp.matches_here]. rewrite IH. f_equal.
  unfold RegExp.same_char. now rewrite canonicalize_idempotent.
Qed.

Lemma matches_somewhere_folded (p s : string) :
  RegExp.matches_somewhere true p (RegExp.fold_case s)
  = RegExp.matches_somewhere true p s.
Proof.
  induction s as [|c s IH].
  - reflexivity.
  - change (RegExp.matches_somewhere true p (RegExp.fold_case (String c s)))
      with (RegExp.matches_here true p (RegExp.fold_case (String c s))
            || RegExp.matches_somewhere true p (RegExp.fold_case s)).
    change (RegExp.matches_somewhere true p (String c s))
      with (RegExp.matches_here true p (String c s)
            || RegExp.matches_somewhere true p s).
    now rewrite matches_here_folded, IH.
Qed.

Lemma append_assoc_string (a b c : string) :
  ((a ++ b) ++ c = a ++ (b ++ c))%string.
Proof. induction a as [|x a IH]; simpl; [reflexivity|now rewrite IH]. Qed.

(** The command's pattern looks at letters without their case and may match
    anywhere: a text triggers the command exactly when its upper-case form
    does, and a text that triggers it still does with anything before and
    after it. *)
Theorem command_in_any_case_and_context (text before behind : string) :
  Meetup.triggered (RegExp.fold_case text) = Meetup.triggered text /\
  (Meetup.triggered text = true ->
   Meetup.triggered (before ++ text ++ behind) = true).
Proof.
  unfold Meetup.triggered, Meetup.listeners, RegExp.test. simpl existsb.
  rewrite !orb_false_r. split.
  - apply matches_somewhere_folded.
  - intros H. apply matches_somewhere_fold in H as (pre & mid & post & -> & Hf).
    apply matches_somewhere_fold.
    exists (before ++ pre)%string, mid, (post ++ behind)%string.
    split; [|exact Hf].
    now rewrite !append_assoc_string.
Qed.

Lemma command_in_any_case_and_context_witness :
  Meetup.triggered ("hubot: " ++ "SHOW upcoming Meetups" ++ ", please") = true.
Proof.
  apply (proj2 (command_in_any_case_and_context "SHOW upcoming Meetups"
                  "hubot: " ", please")).
  reflexivity.
Defined.




(** * The listing on the two routines of V8 *)

(** With the run detection and binary insertion of V8 7.0 and later, the
    listing of [getUpcomingMeetups] is the upcoming events in the order of
    the fetch: the comparator's booleans never move an element. *)
Theorem listing_keeps_fetch_order_on_TimSort (env : Process.env)
    (events : list Event.t) :
  Meetup.listing (engine := JS.V8_TimSort) env (Events events)
  = filter is_upcoming events.
Proof.
  unfold Meetup.listing. simpl.
  apply TimSort_never_negative, by_time_never_negative.
Qed.

(** * What the requester gets *)

(** The command answers with one message per upcoming fetched event, in the
    order of the sorted listing, whatever the state of the object; events of
    any other status are left out. *)
Theorem command_lists_every_upcoming_event {engine : JS.SortEngine}
    (env : Process.env) (st : state) (events : list Event.t) (set : outcome) :
  JS.rearranges engine ->
  Forall valid_event events ->
  exists shown,
    sent (snd (Meetup.cmdShowUpcoming env st (Events events) set))
    = map Meetup.rendered shown /\
    shown = Meetup.listing env (Events events) /\
    Permutation shown (filter is_upcoming events).
Proof.
  intros Hre Hv.
  set (shown := Meetup.listing env (Events events)).
  assert (Hp : Permutation shown (filter is_upcoming events))
    by apply Permutation_sym, Hre.
  assert (Hs : Forall valid_event shown).
  { unfold shown, Meetup.listing. simpl. now apply rearranged_valid. }
  exists shown. split; [|now split].
  unfold Meetup.cmdShowUpcoming. simpl Meetup.getUpcomingMeetups. cbv iota.
  change (JS.Array_sort Event.t by_time (filter is_upcoming events)) with shown.
  destruct (announceEvents_effects st shown Requester set)
    as (tail & Hfx & Hth & Hsent & _).
  destruct (Meetup.announceEvents st shown Requester set) as [[s1 fx1] thrown].
  cbn [fst snd] in *. subst fx1.
  rewrite (Meetup_send_each_valid Requester shown Hs) in *. cbn [fst snd] in *.
  subst thrown. unfold sent in *. cbn [flat_map app].
  rewrite !flat_map_app, Hsent. cbn [Meetup.unobserved flat_map].
  rewrite !app_nil_r.
  apply (sent_sends Requester Meetup.rendered).
Qed.

Lemma command_lists_every_upcoming_event_witness :
  exists shown,
    sent (snd (Meetup.cmdShowUpcoming (engine := JS.V8_TimSort) sample_env
                 (connected 5000) (Events fetched_sample) Works))
    = map Meetup.rendered shown /\
    shown = Meetup.listing (engine := JS.V8_TimSort) sample_env (Events fetched_sample) /\
    Permutation shown (filter is_upcoming fetched_sample).
Proof.
  apply (command_lists_every_upcoming_event (engine := JS.V8_TimSort) sample_env
           (connected 5000) fetched_sample Works).
  - exact V8_TimSort_rearranges.
  - exact fetched_sample_valid.
Defined.

(** When the fetch fails the command says nothing: the requester gets no
    message, nothing is logged or written and the object is left as it
    was. *)
Theorem command_says_nothing_on_failure {engine : JS.SortEngine}
    (env : Process.env) (st : state) (reply : http_reply) (set : outcome) :
  reply = NetworkError \/ reply = BadBody ->
  let (st', fx) := Meetup.cmdShowUpcoming env st reply set in
  st' = st /\ sent fx = [] /\ writes fx = [] /\ existsb is_log fx = false.
Proof. intros [-> | ->]; simpl; now repeat split. Qed.

Lemma command_says_nothing_on_failure_witness :
  let (st', fx) :=
    Meetup.cmdShowUpcoming (engine := JS.V8_TimSort) sample_env (connected 1000)
      BadBody Works in
  st' = connected 1000 /\ sent fx = [] /\ writes fx = [] /\ existsb is_log fx = false.
Proof.
  apply (command_says_nothing_on_failure (engine := JS.V8_TimSort) sample_env
           (connected 1000) BadBody Works).
  right. reflexivity.
Defined.
